(** * Advanced-Bankist: the page script, embedded and verified

    The repository is a browser script (four revisions of it: [script.js]
    and three later ones).  The most complete revision wires a carousel
    (slides, dot indicators, arrow keys gated by an IntersectionObserver),
    a modal window, a sticky navigation bar and a tabbed component onto a
    static document.

    The embedding is shallow: every function of the script becomes a
    computation in a small state-and-exception monad over the part of the
    DOM the function touches; the browser's event loop becomes a [step]
    function over a type of events.  The document itself (the markup) is
    not part of the sources, so whatever the script reads from it is a
    parameter of the model. *)

From Stdlib Require Import ZArith DecimalString DecimalNat.
From stdpp Require Import base tactics option list strings.

Open Scope Z_scope.

(** ** JavaScript values the script computes with *)

(** Numbers.  Every number the script builds is an array index, a
    NodeList length, or one of them shifted by one or scaled by 100; all
    are integers far below 2^53, where doubles are exact, so [Z] carries
    them.  [NaN] is what [Number] returns on a string that is no numeral
    and is absorbing for the arithmetic. *)
Inductive number : Type :=
  | NaN
  | Num (z : Z).

#[global] Instance number_eq_dec : EqDecision number.
Proof. solve_decision. Defined.

Definition arith (f : Z → Z → Z) (a b : number) : number :=
  match a, b with
  | Num x, Num y => Num (f x y)
  | _, _ => NaN
  end.

(** [a + b], [a - b], [a * b] on numbers. *)
Definition add : number → number → number := arith Z.add.
Definition sub : number → number → number := arith Z.sub.
Definition mul : number → number → number := arith Z.mul.

(** [a === b] on numbers: [NaN] equals nothing, itself included. *)
Definition strict_eq (a b : number) : bool :=
  match a, b with
  | Num x, Num y => bool_decide (x = y)
  | _, _ => false
  end.

(** Decimal digits of a natural number, as a template literal prints
    them. *)
Definition digits (n : nat) : string :=
  NilZero.string_of_uint (Nat.to_uint n).

(** [String(a)], the conversion a template literal applies to [${a}]. *)
Definition toString (a : number) : string :=
  match a with
  | NaN => "NaN"
  | Num z => if bool_decide (z < 0) then "-" +:+ digits (Z.abs_nat z)
             else digits (Z.to_nat z)
  end.

(** [Number(s)] on the strings a [data-slide] attribute can hold here: a
    run of decimal digits is read as that numeral (leading zeros allowed,
    the empty string is 0), any other string gives [NaN].  JavaScript
    reads a few more forms as numbers (blanks around the numeral, a sign,
    a fraction, an exponent, hexadecimal); the script never writes one of
    them into the attribute. *)
Definition Number_ (s : string) : number :=
  match NilEmpty.uint_of_string s with
  | Some d => Num (Z.of_nat (Nat.of_uint d))
  | None => NaN
  end.

(** The length of a NodeList, as a number. *)
Definition length_ {A} (l : list A) : number := Num (Z.of_nat (length l)).

(** ** Computations: state and exceptions *)

(** The only exception the script can raise is the [TypeError] of a
    property access on [null] or [undefined]. *)
Inductive Exception : Type :=
  | TypeError.

Inductive Completion (A : Type) : Type :=
  | Normal (a : A)
  | Throw (e : Exception).
Arguments Normal {A} a.
Arguments Throw {A} e.

(** A computation over a store [S]: it ends normally with a value or
    abruptly with an exception, and in both cases the writes made so far
    stay in the store. *)
Definition M (S A : Type) : Type := S → Completion A * S.

#[global] Instance M_ret {S} : MRet (M S) :=
  λ A a s, (Normal a, s).

#[global] Instance M_bind {S} : MBind (M S) :=
  λ A B f m s,
    match m s with
    | (Normal a, s') => f a s'
    | (Throw e, s') => (Throw e, s')
    end.

Definition gets {S A} (f : S → A) : M S A := λ s, (Normal (f s), s).
Definition modify {S} (f : S → S) : M S unit := λ s, (Normal tt, f s).
Definition throw {S A} (e : Exception) : M S A := λ s, (Throw e, s).

(** The store a computation leaves, whichever way it ended. *)
Definition exec {S A} (m : M S A) (s : S) : S := snd (m s).

(** ** The document *)

(** A dot indicator: [<button class="dots__dot" data-slide="...">].
    [dot_active] is membership of [dots__dot--active] in its class list. *)
Record Dot : Type := mkDot {
  data_slide : string;
  dot_active : bool
}.

(** The two functions the script registers for [keydown] on [document]:
    the named [handleKey] and the anonymous arrow function that closes
    the modal on Escape.  A listener list compares callbacks by
    identity. *)
Inductive Listener : Type :=
  | HandleKey
  | EscapeHandler.

#[global] Instance Listener_eq_dec : EqDecision Listener.
Proof. solve_decision. Defined.

(** The mutable state the script reads and writes.
    - [currentSlide]: the top-level [let currentSlide].
    - [allSlides]: the [.slide] elements in document order, each
      represented by its [style.transform].
    - [allDots]: the [.dots__dot] elements in document order.
    - [keydownListeners]: the event listener list of [document] for
      [keydown], in registration order.
    - [navSticky]: whether [.nav] carries the class [sticky].
    - [modalHidden], [overlayHidden]: whether [.modal] and [.overlay]
      carry the class [hidden].
    - [bodyOverflow]: [document.body.style.overflow].
    - [previousOverflow]: the top-level [let previousOverflow]; [None]
      is [undefined]. *)
Record Page : Type := mkPage {
  currentSlide : number;
  allSlides : list string;
  allDots : list Dot;
  keydownListeners : list Listener;
  navSticky : bool;
  modalHidden : bool;
  overlayHidden : bool;
  bodyOverflow : string;
  previousOverflow : option string
}.

Definition set_currentSlide (v : number) (p : Page) : Page :=
  mkPage v (allSlides p) (allDots p) (keydownListeners p) (navSticky p)
         (modalHidden p) (overlayHidden p) (bodyOverflow p) (previousOverflow p).
Definition set_allSlides (v : list string) (p : Page) : Page :=
  mkPage (currentSlide p) v (allDots p) (keydownListeners p) (navSticky p)
         (modalHidden p) (overlayHidden p) (bodyOverflow p) (previousOverflow p).
Definition set_allDots (v : list Dot) (p : Page) : Page :=
  mkPage (currentSlide p) (allSlides p) v (keydownListeners p) (navSticky p)
         (modalHidden p) (overlayHidden p) (bodyOverflow p) (previousOverflow p).
Definition set_keydownListeners (v : list Listener) (p : Page) : Page :=
  mkPage (currentSlide p) (allSlides p) (allDots p) v (navSticky p)
         (modalHidden p) (overlayHidden p) (bodyOverflow p) (previousOverflow p).
Definition set_navSticky (v : bool) (p : Page) : Page :=
  mkPage (currentSlide p) (allSlides p) (allDots p) (keydownListeners p) v
         (modalHidden p) (overlayHidden p) (bodyOverflow p) (previousOverflow p).
Definition set_modalHidden (v : bool) (p : Page) : Page :=
  mkPage (currentSlide p) (allSlides p) (allDots p) (keydownListeners p)
         (navSticky p) v (overlayHidden p) (bodyOverflow p) (previousOverflow p).
Definition set_overlayHidden (v : bool) (p : Page) : Page :=
  mkPage (currentSlide p) (allSlides p) (allDots p) (keydownListeners p)
         (navSticky p) (modalHidden p) v (bodyOverflow p) (previousOverflow p).
Definition set_bodyOverflow (v : string) (p : Page) : Page :=
  mkPage (currentSlide p) (allSlides p) (allDots p) (keydownListeners p)
         (navSticky p) (modalHidden p) (overlayHidden p) v (previousOverflow p).
Definition set_previousOverflow (v : option string) (p : Page) : Page :=
  mkPage (currentSlide p) (allSlides p) (allDots p) (keydownListeners p)
         (navSticky p) (modalHidden p) (overlayHidden p) (bodyOverflow p) v.

(** ** The carousel *)

(** [slideMove(currentSlide)]: every slide gets the transform
    [translateX(${100 * (index - currentSlide)}%)]. *)
Definition slideMove (currentSlide : number) : M Page unit :=
  modify (λ p,
    set_allSlides
      (imap (λ index _,
               "translateX("
               +:+ toString (mul (Num 100) (sub (Num (Z.of_nat index)) currentSlide))
               +:+ "%)")
            (allSlides p))
      p).

(** [document.querySelector(`.dots__dot[data-slide="${curslide}"]`)]: the
    first dot, in document order, whose attribute is that string; [None]
    is [null]. *)
Definition querySelector_dot (curslide : number) (dots : list Dot) : option nat :=
  fst <$> list_find (λ dot, data_slide dot = toString curslide) dots.

Definition classList_remove_active (dot : Dot) : Dot :=
  mkDot (data_slide dot) false.
Definition classList_add_active (dot : Dot) : Dot :=
  mkDot (data_slide dot) true.

(** [activateDot(curslide)]: the active class is taken off every dot,
    the dot tagged [curslide] is looked up, and the class is put on it.
    When the lookup gives [null] the [classList] access raises. *)
Definition activateDot (curslide : number) : M Page unit :=
  modify (λ p, set_allDots (classList_remove_active <$> allDots p) p);;
  toActivateDot ← gets (λ p, querySelector_dot curslide (allDots p));
  match toActivateDot with
  | None => throw TypeError
  | Some i => modify (λ p, set_allDots (alter classList_add_active i (allDots p)) p)
  end.

(** [nextSlide()]. *)
Definition nextSlide : M Page unit :=
  modify (λ p,
    set_currentSlide
      (if strict_eq (currentSlide p) (sub (length_ (allSlides p)) (Num 1))
       then Num 0
       else add (currentSlide p) (Num 1))
      p);;
  cur ← gets currentSlide;
  slideMove cur;;
  activateDot cur.

(** [previousSlide()]. *)
Definition previousSlide : M Page unit :=
  modify (λ p,
    set_currentSlide
      (if strict_eq (currentSlide p) (Num 0)
       then sub (length_ (allSlides p)) (Num 1)
       else sub (currentSlide p) (Num 1))
      p);;
  cur ← gets currentSlide;
  slideMove cur;;
  activateDot cur.

(** [createDots()]: one button per slide is appended to the dot
    container, tagged with the slide's index. *)
Definition createDots : M Page unit :=
  modify (λ p,
    set_allDots
      (allDots p ++ imap (λ index _, mkDot (toString (Num (Z.of_nat index))) false)
                         (allSlides p))
      p).

(** What a click inside the dot container can land on: one of the dots
    (the buttons have no children), given by its position in document
    order, or the container itself. *)
Inductive DotsTarget : Type :=
  | OnDot (k : nat)
  | OnDotContainer.

(** The click listener of the dot container.  Only a dot carries the
    class [dots__dot]; a position that names no dot is no element, and
    the listener has nothing to do. *)
Definition dotContainer_click (target : DotsTarget) : M Page unit :=
  match target with
  | OnDotContainer => mret tt
  | OnDot k =>
      dot ← gets (λ p, allDots p !! k);
      match dot with
      | None => mret tt
      | Some dot =>
          modify (set_currentSlide (Number_ (data_slide dot)));;
          cur ← gets currentSlide;
          slideMove cur;;
          activateDot cur
      end
  end.

(** ** Keyboard navigation, gated by visibility *)

(** [handleKey(event)], on the event's [key]. *)
Definition handleKey (key : string) : M Page unit :=
  (if bool_decide (key = "ArrowRight") then nextSlide else mret tt);;
  (if bool_decide (key = "ArrowLeft") then previousSlide else mret tt).

(** [target.addEventListener(type, callback)]: the listener is appended
    unless the list already holds one with the same type, callback and
    capture flag. *)
Definition addEventListener (l : Listener) (ls : list Listener) : list Listener :=
  if bool_decide (l ∈ ls) then ls else ls ++ [l].

(** [target.removeEventListener(type, callback)]: the matching listener,
    if there is one, is taken out of the list. *)
Fixpoint removeEventListener (l : Listener) (ls : list Listener) : list Listener :=
  match ls with
  | [] => []
  | l' :: ls' => if bool_decide (l' = l) then ls' else l' :: removeEventListener l ls'
  end.

(** An [IntersectionObserverEntry], as far as the callbacks read it. *)
Record Entry : Type := mkEntry {
  isIntersecting : bool
}.

(** [const [entry] = entries; ... entry.isIntersecting]: the first
    element of the array, and the [TypeError] of reading a property of
    [undefined] when the array is empty. *)
Definition first_isIntersecting (entries : list Entry) : M Page bool :=
  match entries with
  | [] => throw TypeError
  | entry :: _ => mret (isIntersecting entry)
  end.

(** [sliderView(entries)]. *)
Definition sliderView (entries : list Entry) : M Page unit :=
  visible ← first_isIntersecting entries;
  if (visible : bool)
  then modify (λ p, set_keydownListeners (addEventListener HandleKey (keydownListeners p)) p)
  else modify (λ p, set_keydownListeners (removeEventListener HandleKey (keydownListeners p)) p).

(** ** Sticky navigation *)

(** [stickyNav(entries)]. *)
Definition stickyNav (entries : list Entry) : M Page unit :=
  visible ← first_isIntersecting entries;
  if negb (visible : bool)
  then modify (set_navSticky true)
  else modify (set_navSticky false).

(** ** The modal window *)

(** [openModal()]. *)
Definition openModal : M Page unit :=
  modify (λ p, set_previousOverflow (Some (bodyOverflow p)) p);;
  modify (set_modalHidden false);;
  modify (set_overlayHidden false);;
  modify (set_bodyOverflow "hidden").

(** [closeModal()].  While [previousOverflow] is still [undefined] the
    assignment to [style.overflow] writes the string "undefined", which
    is no value of the property, and the style keeps what it had. *)
Definition closeModal : M Page unit :=
  modify (set_modalHidden true);;
  modify (set_overlayHidden true);;
  modify (λ p,
    match previousOverflow p with
    | Some v => set_bodyOverflow v p
    | None => p
    end).

(** The arrow function registered for [keydown] at the end of the
    script. *)
Definition escapeHandler (key : string) : M Page unit :=
  hidden ← gets modalHidden;
  if bool_decide (key = "Escape") && negb (hidden : bool)
  then closeModal
  else mret tt.

(** ** Loading the page and the event loop *)

(** The state before the script runs: [currentSlide] is initialised to
    0, no [keydown] listener is registered, [previousOverflow] is
    declared without a value.  The markup is not in the sources; it is
    taken to have [N] slides without inline transform, no element of
    class [dots__dot] (the dot container is empty), the modal and
    overlay hidden, the navigation not sticky, and an inline [overflow]
    on the body given by [overflow]. *)
Definition initial (N : nat) (overflow : string) : Page :=
  mkPage (Num 0) (replicate N "") [] [] false true true overflow None.

(** The statements of the script that run at load time and touch the
    state, in source order.  A statement that raises ends the script:
    the ones after it do not run. *)
Definition script : M Page unit :=
  cur ← gets currentSlide;
  slideMove cur;;
  createDots;;
  activateDot (Num 0);;
  modify (λ p, set_keydownListeners (addEventListener EscapeHandler (keydownListeners p)) p).

Definition load (N : nat) (overflow : string) : Page :=
  exec script (initial N overflow).

(** What the browser can deliver to the page once it is loaded. *)
Inductive Event : Type :=
  | Click_rightBtn
  | Click_leftBtn
  | Click_dotContainer (target : DotsTarget)
  | Keydown (key : string)
  | Intersection_slider (entries : list Entry)
  | Intersection_header (entries : list Entry)
  | Click_showModal
  | Click_btnClose
  | Click_overlay.

Definition call_listener (l : Listener) (key : string) : M Page unit :=
  match l with
  | HandleKey => handleKey key
  | EscapeHandler => escapeHandler key
  end.

(** Firing [keydown] on [document]: the listeners registered at that
    moment are called in order; an exception raised by one is reported
    and does not keep the following ones from running. *)
Definition dispatch_keydown (key : string) (p : Page) : Page :=
  foldl (λ q l, exec (call_listener l key) q) p (keydownListeners p).

(** The listener (or, for [keydown], the listeners) an event runs.  The
    click listeners and the observers are taken as registered: the
    script registers them all when it runs to its end, and it does so
    whenever there is at least one slide. *)
Definition handler (e : Event) : M Page unit :=
  match e with
  | Click_rightBtn => nextSlide
  | Click_leftBtn => previousSlide
  | Click_dotContainer target => dotContainer_click target
  | Keydown key => modify (dispatch_keydown key)
  | Intersection_slider entries => sliderView entries
  | Intersection_header entries => stickyNav entries
  | Click_showModal => openModal
  | Click_btnClose => closeModal
  | Click_overlay => closeModal
  end.

(** One turn of the event loop.  An uncaught exception ends the listener
    and is reported; the page lives on with the writes made so far. *)
Definition step (p : Page) (e : Event) : Page := exec (handler e) p.

Definition run (es : list Event) (p : Page) : Page := foldl step p es.

(** ** The tabbed component *)

(** An element of the document, as the tab code reads it: its class
    list, in order, and its [data-tab] attribute ([None] when it has
    none, so that [dataset.tab] is [undefined]). *)
Record Element : Type := mkElement {
  classList : list string;
  data_tab : option string
}.

Definition contains (c : string) (el : Element) : bool :=
  bool_decide (c ∈ classList el).

(** [el.classList.add(c)]: a token list holds a class once. *)
Definition classList_add (c : string) (el : Element) : Element :=
  if contains c el then el else mkElement (classList el ++ [c]) (data_tab el).

(** [el.classList.remove(c)]. *)
Definition classList_remove (c : string) (el : Element) : Element :=
  mkElement (filter (λ c', c' ≠ c) (classList el)) (data_tab el).

(** The store of the tab code: the elements of the document, numbered
    in document order, and the two static NodeLists the script takes
    when it loads. *)
Record Tabs : Type := mkTabs {
  elements : list Element;
  operationsTabs : list nat;
  operationsContents : list nat
}.

Definition set_elements (v : list Element) (s : Tabs) : Tabs :=
  mkTabs v (operationsTabs s) (operationsContents s).

Definition has_class (c : string) (els : list Element) (n : nat) : bool :=
  from_option (contains c) false (els !! n).

(** [document.querySelectorAll('.c')]: the elements of class [c], in
    document order. *)
Definition querySelectorAll (c : string) (els : list Element) : list nat :=
  filter (λ n, has_class c els n = true) (seq 0 (length els)).

(** [document.querySelector('.c')]: the first of them, or [null]. *)
Definition querySelector (c : string) (els : list Element) : option nat :=
  fst <$> list_find (λ el, contains c el = true) els.

(** [event.target.closest('.c')]: the first element of class [c] on the
    way from the target up to the root.  [path] is that way: the target,
    its parent, and so on. *)
Definition closest (c : string) (els : list Element) (path : list nat) : option nat :=
  snd <$> list_find (λ n, has_class c els n = true) path.

(** [nodes.forEach(el => el.classList.remove(c))]. *)
Definition forEach_remove (c : string) (nodes : list nat) : M Tabs unit :=
  modify (λ s,
    set_elements (foldl (λ els n, alter (classList_remove c) n els) (elements s) nodes) s).

(** [`${clicked.dataset.tab}`]. *)
Definition dataset_tab (els : list Element) (n : nat) : string :=
  default "undefined" (els !! n ≫= data_tab).

(** What both revisions of the listener do once they have settled on
    the element [clicked].  The panel lookup
    [document.querySelector(`.operations__content--${data-tab}`)] is
    embedded as the lookup of the first element carrying that class,
    which is what the selector means when the [data-tab] is made of name
    characters ([name_chars] below).  The facts that depend on what the
    lookup finds take that as a hypothesis; a [data-tab] with other
    characters is outside of them. *)
Definition activate_tab (clicked : nat) : M Tabs unit :=
  tabs ← gets operationsTabs;
  forEach_remove "operations__tab--active" tabs;;
  modify (λ s, set_elements (alter (classList_add "operations__tab--active") clicked (elements s)) s);;
  contents ← gets operationsContents;
  forEach_remove "operations__content--active" contents;;
  targetContent ← gets (λ s,
    querySelector ("operations__content--" +:+ dataset_tab (elements s) clicked) (elements s));
  match targetContent with
  | None => throw TypeError
  | Some n =>
      modify (λ s, set_elements (alter (classList_add "operations__content--active") n (elements s)) s)
  end.

(** [switchTab(event)], the listener of the three later revisions:
    delegation on [.operations__tab]. *)
Definition switchTab (path : list nat) : M Tabs unit :=
  clicked ← gets (λ s, closest "operations__tab" (elements s) path);
  match clicked with
  | None => mret tt
  | Some clicked => activate_tab clicked
  end.

(** The listener of [script.js]: delegation on [.btn], with the
    container itself ([event.currentTarget]) excluded. *)
Definition operationsTabContainer_click (path : list nat) (currentTarget : nat) : M Tabs unit :=
  clicked ← gets (λ s, closest "btn" (elements s) path);
  match clicked with
  | None => mret tt
  | Some clicked =>
      if bool_decide (clicked ≠ currentTarget)
      then activate_tab clicked
      else mret tt
  end.

(** The store once the script has taken its NodeLists. *)
Definition load_tabs (els : list Element) : Tabs :=
  mkTabs els (querySelectorAll "operations__tab" els)
             (querySelectorAll "operations__content" els).

(** The tabs and the panels that are active. *)
Definition active_tabs (s : Tabs) : list nat :=
  filter (λ n, has_class "operations__tab--active" (elements s) n = true) (operationsTabs s).
Definition active_contents (s : Tabs) : list nat :=
  filter (λ n, has_class "operations__content--active" (elements s) n = true) (operationsContents s).

(** A tab container with two tabs and, next to them, a button that is
    no tab; two panels.  Element 0 is the container. *)
Definition sample_tabs : list Element :=
  [ mkElement ["operations__tab-container"] None;
    mkElement ["btn"; "operations__tab"; "operations__tab--1"; "operations__tab--active"] (Some "1");
    mkElement ["btn"; "operations__tab"; "operations__tab--2"] (Some "2");
    mkElement ["btn"] None;
    mkElement ["operations__content"; "operations__content--1"; "operations__content--active"] None;
    mkElement ["operations__content"; "operations__content--2"] None ].

(** The same tabs written without the class [btn]. *)
Definition sample_tabs_plain : list Element :=
  [ mkElement ["operations__tab-container"] None;
    mkElement ["operations__tab"; "operations__tab--1"; "operations__tab--active"] (Some "1");
    mkElement ["operations__tab"; "operations__tab--2"] (Some "2");
    mkElement ["operations__content"; "operations__content--1"; "operations__content--active"] None;
    mkElement ["operations__content"; "operations__content--2"] None ].

(** ** Properties of pages *)

(** Whether a listener call ended without raising. *)
Definition returns {S A} (m : M S A) (s : S) : Prop :=
  ∃ a, fst (m s) = Normal a.

(** The carousel part of a loaded page showing slide [k] of [N]. *)
Definition slides_at (N : nat) (k : Z) : list string :=
  (λ i : nat, "translateX(" +:+ toString (Num (100 * (Z.of_nat i - k))) +:+ "%)")
    <$> seq 0 N.
Definition dots_at (N : nat) (k : nat) : list Dot :=
  (λ i : nat, mkDot (digits i) (bool_decide (i = k))) <$> seq 0 N.

(** The dots that carry the active class. *)
Definition active_dots (p : Page) : list Dot :=
  filter (λ dot, dot_active dot = true) (allDots p).

(** The page has [N] slides and the dots [createDots] made for them. *)
Definition carousel_of (N : nat) (p : Page) : Prop :=
  length (allSlides p) = N ∧ data_slide <$> allDots p = digits <$> seq 0 N.

(** The page [p] with its carousel brought to slide [k]: the index, the
    transforms and the active dot. *)
Definition goto (N k : nat) (p : Page) : Page :=
  set_allDots (dots_at N k)
    (set_allSlides (slides_at N (Z.of_nat k))
       (set_currentSlide (Num (Z.of_nat k)) p)).

(** The carousel of [p] shows slide [k]. *)
Definition showing (N k : nat) (p : Page) : Prop :=
  currentSlide p = Num (Z.of_nat k)
  ∧ allSlides p = slides_at N (Z.of_nat k)
  ∧ allDots p = dots_at N k.

(** How many times a listener is on the [keydown] list. *)
Definition attached (l : Listener) (p : Page) : nat :=
  length (filter (λ l', l' = l) (keydownListeners p)).

(** What holds of a page from the end of the script on. *)
Record Loaded (N : nat) (p : Page) : Prop := mkLoaded {
  loaded_index : ∃ k, (k < N)%nat ∧ showing N k p;
  loaded_listeners : NoDup (keydownListeners p);
  loaded_escape : EscapeHandler ∈ keydownListeners p
}.

(** The index after [next()] and after [previous()] on [N] slides. *)
Definition succ_index (N k : nat) : nat :=
  if bool_decide (k = N - 1)%nat then 0%nat else S k.
Definition pred_index (N k : nat) : nat :=
  if bool_decide (k = 0)%nat then (N - 1)%nat else (k - 1)%nat.

(** The page after the script has run on a document with [N] slides
    and the events [es] have been delivered, in order. *)
Definition after (N : nat) (overflow : string) (es : list Event) : Page :=
  run es (load N overflow).

(** The part of the page the carousel functions never write. *)
Definition outside_carousel (p : Page)
  : list Listener * bool * bool * bool * string * option string :=
  (keydownListeners p, navSticky p, modalHidden p, overlayHidden p,
   bodyOverflow p, previousOverflow p).

(** The modal has been opened over a body whose overflow was [v], and
    has not been opened again since: [v] is what [previousOverflow]
    holds, and the body is either back to [v] or still locked behind the
    open modal. *)
Definition saved (v : string) (p : Page) : Prop :=
  previousOverflow p = Some v
  ∧ (bodyOverflow p = v ∨ (bodyOverflow p = "hidden" ∧ modalHidden p = false)).

#[global] Instance DotsTarget_eq_dec : EqDecision DotsTarget.
Proof. solve_decision. Defined.
#[global] Instance Entry_eq_dec : EqDecision Entry.
Proof. solve_decision. Defined.
#[global] Instance Event_eq_dec : EqDecision Event.
Proof. solve_decision. Defined.

(** ** Traces of observer reports *)

(** What the last callback of an observer that carried a first entry
    reported, over a sequence of events; [None] when there was none. *)
Definition report_step (select : Event → option (list Entry))
    (acc : option bool) (e : Event) : option bool :=
  match select e with
  | Some (entry :: _) => Some (isIntersecting entry)
  | _ => acc
  end.

Definition last_report (select : Event → option (list Entry)) (es : list Event)
  : option bool :=
  foldl (report_step select) None es.

Definition slider_entries (e : Event) : option (list Entry) :=
  match e with Intersection_slider entries => Some entries | _ => None end.
Definition header_entries (e : Event) : option (list Entry) :=
  match e with Intersection_header entries => Some entries | _ => None end.

(** ** The navigation hover effect *)

(** The navigation bar, as [fadeHandler] reads and writes it: the
    [style.opacity] of each [.nav__link] in document order, and that of
    the [.nav__logo] ([None] when the bar holds no such element). *)
Record Nav : Type := mkNav {
  nav_links : list string;
  nav_logo : option string
}.

(** What a mouse event inside the bar can have as its target: one of
    the links, by position, or an element that is no [.nav__link]. *)
Inductive HoverTarget : Type :=
  | OnLink (link : nat)
  | OffLink.

(** [fadeHandler.call(this, event)]: [this] is the opacity bound with
    [bind], written the way the style stores it.  Every link but the
    target gets it, then the logo; a bar without logo makes the last
    assignment raise. *)
Definition fadeHandler (this : string) (target : HoverTarget) : M Nav unit :=
  match target with
  | OffLink => mret tt
  | OnLink link =>
      present ← gets (λ nav, nav_links nav !! link);
      match present with
      | None => mret tt
      | Some _ =>
          modify (λ nav,
            mkNav (imap (λ el opacity, if bool_decide (el ≠ link) then this else opacity)
                        (nav_links nav))
                  (nav_logo nav));;
          logo ← gets nav_logo;
          match logo with
          | None => throw TypeError
          | Some _ => modify (λ nav, mkNav (nav_links nav) (Some this))
          end
      end
  end.

(** The two listeners: [fadeHandler.bind(0.5)] on [mouseover] and
    [fadeHandler.bind(1)] on [mouseout]. *)
Definition nav_mouseover : HoverTarget → M Nav unit := fadeHandler "0.5".
Definition nav_mouseout : HoverTarget → M Nav unit := fadeHandler "1".

Inductive HoverEvent : Type :=
  | Mouseover (target : HoverTarget)
  | Mouseout (target : HoverTarget).

Definition hover_step (nav : Nav) (e : HoverEvent) : Nav :=
  match e with
  | Mouseover target => exec (nav_mouseover target) nav
  | Mouseout target => exec (nav_mouseout target) nav
  end.

(** ** Section reveal and lazy images *)

(** An observer entry with its target, given by position among the
    observed elements. *)
Record TargetEntry : Type := mkTargetEntry {
  entry_isIntersecting : bool;
  entry_target : nat
}.

(** A [.section]: whether it carries the class [section--hidden] and
    whether [sectionObserver] observes it. *)
Record SectionEl : Type := mkSectionEl {
  section_hidden : bool;
  section_observed : bool
}.

(** The loop at the end of the reveal block: every section is hidden
    and observed. *)
Definition hide_sections (n : nat) : list SectionEl :=
  replicate n (mkSectionEl true true).

(** [revealSection(entries, observer)]: an entry that does not
    intersect is skipped; the target of one that does loses the hidden
    class and is unobserved. *)
Definition revealSection (entries : list TargetEntry) : M (list SectionEl) unit :=
  modify (λ sections,
    foldl (λ sections entry,
             if entry_isIntersecting entry
             then alter (λ _, mkSectionEl false false) (entry_target entry) sections
             else sections)
          sections entries).

(** A [.features__img]: the value last given to [src], its [data-src]
    ([None] when it has none), whether it carries [lazy-img], whether
    [imgObserver] observes it, and how many one-shot [load] listeners
    are waiting on it. *)
Record Img : Type := mkImg {
  img_src : string;
  img_data_src : option string;
  img_lazy : bool;
  img_observed : bool;
  img_load_once : nat
}.

(** [allImages.forEach(img => imgObserver.observe(img))], on the images
    as the markup gives them ([src], [data-src], whether lazy). *)
Definition observe_images (markup : list (string * option string * bool)) : list Img :=
  (λ '(src, data_src, lazy), mkImg src data_src lazy true 0) <$> markup.

(** What [imageObserver] does to the target of an intersecting entry:
    [src] takes the value of [dataset.src] (the string "undefined" when
    the attribute is missing), a fresh one-shot [load] listener is
    added, and the image is unobserved. *)
Definition start_loading (img : Img) : Img :=
  mkImg (default "undefined" (img_data_src img)) (img_data_src img)
        (img_lazy img) false (S (img_load_once img)).

(** [imageObserver(entries, observer)]. *)
Definition imageObserver (entries : list TargetEntry) : M (list Img) unit :=
  modify (λ images,
    foldl (λ images entry,
             if entry_isIntersecting entry
             then alter start_loading (entry_target entry) images
             else images)
          images entries).

(** A [load] event on an image: each waiting listener takes the class
    [lazy-img] off, and being registered with [once] none of them
    stays. *)
Definition image_loaded (img : Img) : Img :=
  mkImg (img_src img) (img_data_src img)
        (match img_load_once img with O => img_lazy img | S _ => false end)
        (img_observed img) 0.

Inductive ImgEvent : Type :=
  | Intersection_images (entries : list TargetEntry)
  | Load_image (target : nat).

Definition img_step (images : list Img) (e : ImgEvent) : list Img :=
  match e with
  | Intersection_images entries => exec (imageObserver entries) images
  | Load_image target => alter image_loaded target images
  end.

(** ** Sequences of tab clicks *)

(** The characters a [data-tab] may be made of for the string
    [.operations__content--${data-tab}] to be one class selector, whose
    class is what follows the dot: ASCII letters, digits, hyphen and
    underscore.  With any other character the string can be a different
    selector (a list, a compound) or none at all. *)
Definition name_char (a : Ascii.ascii) : bool :=
  let n := Ascii.nat_of_ascii a in
  (Nat.leb 48 n && Nat.leb n 57) || (Nat.leb 65 n && Nat.leb n 90)
  || (Nat.leb 97 n && Nat.leb n 122) || Nat.eqb n 45 || Nat.eqb n 95.

Fixpoint name_chars (s : string) : bool :=
  match s with
  | EmptyString => true
  | String a s' => name_char a && name_chars s'
  end.

(** The store after [switchTab] has handled the clicks with the given
    paths, in order. *)
Definition run_tabs (clicks : list (list nat)) (s : Tabs) : Tabs :=
  foldl (λ s path, exec (switchTab path) s) s clicks.

(** The store [s] still has the markup [els] it was loaded from: the
    same NodeLists, the same elements with the same [data-tab], and the
    same classes but for the two markers of the active tab and panel. *)
Definition same_markup (els : list Element) (s : Tabs) : Prop :=
  operationsTabs s = querySelectorAll "operations__tab" els
  ∧ operationsContents s = querySelectorAll "operations__content" els
  ∧ length (elements s) = length els
  ∧ (∀ m, elements s !! m ≫= data_tab = els !! m ≫= data_tab)
  ∧ (∀ c m, c ≠ "operations__tab--active" → c ≠ "operations__content--active" →
            has_class c (elements s) m = has_class c els m).

(** ** The modal part of a page *)

(** What the modal listeners keep true on a page loaded over a body
    whose overflow was [overflow]: overlay and modal are hidden
    together, an open modal locks the body, and neither the body nor
    the saved value holds anything but [overflow] or "hidden". *)
Definition modal_inv (overflow : string) (p : Page) : Prop :=
  overlayHidden p = modalHidden p
  ∧ (modalHidden p = false → bodyOverflow p = "hidden")
  ∧ (bodyOverflow p = overflow ∨ bodyOverflow p = "hidden")
  ∧ (∀ v, previousOverflow p = Some v → v = overflow ∨ v = "hidden").

(** ** Sequences of hover events, observer callbacks and image events *)

Definition hover_target (e : HoverEvent) : HoverTarget :=
  match e with Mouseover target | Mouseout target => target end.

Definition hover_run (es : list HoverEvent) (nav : Nav) : Nav :=
  foldl hover_step nav es.

(** The entry reports the element at position [i] as intersecting. *)
Definition intersects (i : nat) (entry : TargetEntry) : Prop :=
  entry_isIntersecting entry = true ∧ entry_target entry = i.

#[global] Instance intersects_dec (i : nat) (entry : TargetEntry) :
  Decision (intersects i entry).
Proof. unfold intersects. apply _. Defined.

(** The sections after the callbacks of [sectionObserver] with the
    given entry lists, in order. *)
Definition reveal_run (callbacks : list (list TargetEntry)) (sections : list SectionEl)
  : list SectionEl :=
  foldl (λ sections entries, exec (revealSection entries) sections) sections callbacks.

Definition img_run (es : list ImgEvent) (images : list Img) : list Img :=
  foldl img_step images es.

(** The entries an image event carries. *)
Definition img_entries (e : ImgEvent) : list TargetEntry :=
  match e with
  | Intersection_images entries => entries
  | Load_image _ => []
  end.

(** What holds of an image whose markup gave it the source [src], the
    [data-src] [data] and the class [lazy-img] or not ([lazy]): either
    it is as the script left it at load, or its source is its
    [data-src], it is unobserved, and the class is as in the markup or
    gone. *)
Definition img_inv (m : string * option string * bool) (img : Img) : Prop :=
  let '(src, data, lazy) := m in
  img_data_src img = data
  ∧ (img = mkImg src data lazy true 0
     ∨ (img_src img = default "undefined" data
        ∧ img_observed img = false
        ∧ (img_lazy img = lazy ∨ img_lazy img = false))).

(** * Facts *)

(** ** Numerals *)

Lemma Number_digits (n : nat) : Number_ (digits n) = Num (Z.of_nat n).
Proof.
  unfold Number_, digits.
  pose proof (Unsigned.of_to n) as Hn.
  destruct (Nat.to_uint n) as [|d|d|d|d|d|d|d|d|d|d] eqn:E;
    try (change (NilZero.string_of_uint ?u) with (NilEmpty.string_of_uint u);
         rewrite NilEmpty.usu; by rewrite Hn).
  simpl in Hn. by subst n.
Qed.

Lemma toString_nat (n : nat) : toString (Num (Z.of_nat n)) = digits n.
Proof.
  unfold toString. rewrite bool_decide_eq_false_2 by lia.
  by rewrite Nat2Z.id.
Qed.

Lemma digits_inj (m n : nat) : digits m = digits n → m = n.
Proof.
  intros H. apply Nat2Z.inj.
  assert (Num (Z.of_nat m) = Num (Z.of_nat n)) as [= ->]; [|done].
  by rewrite <- !Number_digits, H.
Qed.

(** ** The carousel functions on a well-formed carousel *)

Ltac unfold_M :=
  cbv [mbind M_bind mret M_ret gets modify throw exec returns fst snd].

Lemma carousel_of_tag (N : nat) (p : Page) (i : nat) (dot : Dot) :
  carousel_of N p → allDots p !! i = Some dot →
  (i < N)%nat ∧ data_slide dot = digits i.
Proof.
  intros [_ Htags] Hi.
  assert ((data_slide <$> allDots p) !! i = Some (data_slide dot)) as H
    by (by rewrite list_lookup_fmap, Hi).
  rewrite Htags, list_lookup_fmap in H.
  destruct (seq 0 N !! i) as [j|] eqn:E; [|done].
  apply lookup_seq in E as [-> ?]. by simplify_eq/=.
Qed.

Lemma carousel_of_dots_length (N : nat) (p : Page) :
  carousel_of N p → length (allDots p) = N.
Proof.
  intros [_ Htags].
  rewrite <- (length_fmap data_slide), Htags, length_fmap. apply length_seq.
Qed.

Lemma carousel_of_dot (N : nat) (p : Page) (i : nat) :
  carousel_of N p → (i < N)%nat →
  ∃ dot, allDots p !! i = Some dot ∧ data_slide dot = digits i.
Proof.
  intros Hc Hi.
  destruct (lookup_lt_is_Some_2 (allDots p) i) as [dot Hdot].
  { by rewrite (carousel_of_dots_length N). }
  exists dot. split; [done|]. by eapply carousel_of_tag.
Qed.

Lemma slideMove_spec (k : nat) (p : Page) :
  slideMove (Num (Z.of_nat k)) p
  = (Normal tt, set_allSlides (slides_at (length (allSlides p)) (Z.of_nat k)) p).
Proof.
  unfold slideMove, modify, slides_at. do 2 f_equal.
  by rewrite <- imap_seq_0.
Qed.

Lemma querySelector_dot_spec (N k : nat) (p : Page) :
  carousel_of N p → (k < N)%nat →
  querySelector_dot (Num (Z.of_nat k)) (classList_remove_active <$> allDots p) = Some k.
Proof.
  intros Hc Hk. unfold querySelector_dot. rewrite toString_nat.
  destruct (carousel_of_dot N p k Hc Hk) as (dot & Hdot & Htag).
  assert (list_find (λ dot, data_slide dot = digits k)
            (classList_remove_active <$> allDots p)
          = Some (k, classList_remove_active dot)) as ->; [|done].
  apply list_find_Some. split_and!.
  - by rewrite list_lookup_fmap, Hdot.
  - done.
  - intros j y Hj Hlt Hy. rewrite list_lookup_fmap in Hj.
    destruct (allDots p !! j) as [d|] eqn:E; [|done].
    apply (carousel_of_tag N) in E as [_ E]; [|done].
    simplify_eq/=. rewrite E in Hy. apply digits_inj in Hy. lia.
Qed.

Lemma activateDot_spec (N k : nat) (p : Page) :
  carousel_of N p → (k < N)%nat →
  activateDot (Num (Z.of_nat k)) p = (Normal tt, set_allDots (dots_at N k) p).
Proof.
  intros Hc Hk. unfold activateDot. unfold_M.
  change (allDots (set_allDots ?d _)) with d.
  rewrite (querySelector_dot_spec N) by done.
  unfold set_allDots; simpl. do 2 f_equal.
  apply list_eq. intros i. unfold dots_at.
  rewrite list_lookup_alter, !list_lookup_fmap.
  destruct (decide (k = i)) as [->|Hne].
  - destruct (carousel_of_dot N p i Hc Hk) as (dot & -> & Htag).
    rewrite lookup_seq_lt by done. simpl.
    rewrite bool_decide_eq_true_2 by done.
    unfold classList_add_active, classList_remove_active; simpl. by rewrite Htag.
  - destruct (allDots p !! i) as [dot|] eqn:E.
    + destruct (carousel_of_tag N p i dot Hc E) as [Hi Htag].
      rewrite lookup_seq_lt by done. simpl.
      rewrite bool_decide_eq_false_2 by done.
      unfold classList_remove_active. by rewrite Htag.
    + apply lookup_ge_None in E. rewrite (carousel_of_dots_length N) in E by done.
      by rewrite lookup_seq_ge.
Qed.

Lemma goto_carousel_of (N k : nat) (p : Page) :
  carousel_of N (goto N k p).
Proof.
  split; simpl.
  - unfold slides_at. by rewrite length_fmap, length_seq.
  - unfold dots_at. rewrite <- list_fmap_compose. by apply list_fmap_ext.
Qed.

Lemma goto_showing (N k : nat) (p : Page) : showing N k (goto N k p).
Proof. done. Qed.

Lemma showing_carousel_of (N k : nat) (p : Page) :
  showing N k p → carousel_of N p.
Proof.
  intros (_ & Hs & Hd). split.
  - rewrite Hs. unfold slides_at. by rewrite length_fmap, length_seq.
  - rewrite Hd. unfold dots_at. rewrite <- list_fmap_compose. by apply list_fmap_ext.
Qed.

Lemma showing_goto (N k : nat) (p : Page) : showing N k p → goto N k p = p.
Proof. destruct p. intros (? & ? & ?). simplify_eq/=. done. Qed.

(** The value [nextSlide] and [previousSlide] assign to [currentSlide]. *)
Lemma next_value (N k : nat) :
  (k < N)%nat →
  (if strict_eq (Num (Z.of_nat k)) (sub (Num (Z.of_nat N)) (Num 1))
   then Num 0 else add (Num (Z.of_nat k)) (Num 1))
  = Num (Z.of_nat (succ_index N k)).
Proof.
  intros Hk. unfold succ_index; simpl.
  destruct (decide (k = N - 1)%nat) as [->|Hne].
  - rewrite !bool_decide_eq_true_2; [done..|lia].
  - rewrite !bool_decide_eq_false_2; [f_equal; lia|done|lia].
Qed.

Lemma previous_value (N k : nat) :
  (k < N)%nat →
  (if strict_eq (Num (Z.of_nat k)) (Num 0)
   then sub (Num (Z.of_nat N)) (Num 1) else sub (Num (Z.of_nat k)) (Num 1))
  = Num (Z.of_nat (pred_index N k)).
Proof.
  intros Hk. unfold pred_index; simpl.
  destruct (decide (k = 0)%nat) as [->|Hne].
  - rewrite !bool_decide_eq_true_2; [f_equal; lia|done..].
  - rewrite !bool_decide_eq_false_2; [f_equal; lia|done|lia].
Qed.

Lemma succ_index_lt (N k : nat) : (k < N)%nat → (succ_index N k < N)%nat.
Proof. unfold succ_index. case_bool_decide; lia. Qed.

Lemma pred_index_lt (N k : nat) : (k < N)%nat → (pred_index N k < N)%nat.
Proof. unfold pred_index. case_bool_decide; lia. Qed.

(** Once [currentSlide] holds an index in range, the rest of each
    carousel listener is [slideMove] and [activateDot] at that index. *)
Lemma move_and_activate (N k : nat) (p : Page) :
  carousel_of N p → (k < N)%nat →
  (cur ← gets currentSlide; slideMove cur;; activateDot cur)
    (set_currentSlide (Num (Z.of_nat k)) p)
  = (Normal tt, goto N k p).
Proof.
  intros Hc Hk. unfold_M.
  change (currentSlide (set_currentSlide ?v _)) with v.
  rewrite slideMove_spec.
  change (allSlides (set_currentSlide _ ?q)) with (allSlides q).
  destruct Hc as [Hlen Htags]. rewrite Hlen.
  rewrite (activateDot_spec N); [done| |done].
  split; [|done]. unfold slides_at; simpl. by rewrite length_fmap, length_seq.
Qed.

Lemma nextSlide_spec (N k : nat) (p : Page) :
  carousel_of N p → currentSlide p = Num (Z.of_nat k) → (k < N)%nat →
  nextSlide p = (Normal tt, goto N (succ_index N k) p).
Proof.
  intros Hc Hcur Hk. unfold nextSlide.
  unfold mbind at 1, M_bind at 1, modify at 1.
  rewrite Hcur. unfold length_. rewrite (proj1 Hc), next_value by done.
  apply move_and_activate; [done|by apply succ_index_lt].
Qed.

Lemma previousSlide_spec (N k : nat) (p : Page) :
  carousel_of N p → currentSlide p = Num (Z.of_nat k) → (k < N)%nat →
  previousSlide p = (Normal tt, goto N (pred_index N k) p).
Proof.
  intros Hc Hcur Hk. unfold previousSlide.
  unfold mbind at 1, M_bind at 1, modify at 1.
  rewrite Hcur. unfold length_. rewrite (proj1 Hc), previous_value by done.
  apply move_and_activate; [done|by apply pred_index_lt].
Qed.

Lemma dotContainer_click_spec (N k : nat) (p : Page) :
  carousel_of N p → (k < N)%nat →
  dotContainer_click (OnDot k) p = (Normal tt, goto N k p).
Proof.
  intros Hc Hk. unfold dotContainer_click.
  destruct (carousel_of_dot N p k Hc Hk) as (dot & Hdot & Htag).
  unfold mbind at 1, M_bind at 1, gets at 1. rewrite Hdot.
  unfold mbind at 1, M_bind at 1, modify at 1.
  rewrite Htag, Number_digits.
  by apply move_and_activate.
Qed.

Lemma dotContainer_click_outside (N : nat) (p : Page) (target : DotsTarget) :
  carousel_of N p →
  match target with OnDot k => (N ≤ k)%nat | OnDotContainer => True end →
  dotContainer_click target p = (Normal tt, p).
Proof.
  intros Hc Ht. destruct target as [k|]; [|done].
  unfold dotContainer_click, mbind, M_bind, gets.
  rewrite lookup_ge_None_2; [done|].
  by rewrite (carousel_of_dots_length N).
Qed.

(** ** What the carousel functions leave alone, on any page *)

Lemma activateDot_frame (c : number) (p : Page) :
  ∃ dots, exec (activateDot c) p = set_allDots dots p.
Proof.
  unfold activateDot. unfold_M.
  change (allDots (set_allDots ?d _)) with d.
  destruct (querySelector_dot c _); simpl; eauto.
Qed.

Lemma move_and_activate_frame (v : number) (p : Page) :
  ∃ slides dots,
    length slides = length (allSlides p)
    ∧ exec (cur ← gets currentSlide; slideMove cur;; activateDot cur)
           (set_currentSlide v p)
      = set_allDots dots (set_allSlides slides (set_currentSlide v p)).
Proof.
  unfold exec, mbind, M_bind, gets, slideMove, modify.
  change (currentSlide (set_currentSlide ?v _)) with v.
  change (allSlides (set_currentSlide _ ?q)) with (allSlides q).
  match goal with
  | |- context [activateDot v ?q] =>
      destruct (activateDot_frame v q) as [dots Hdots];
      unfold exec in Hdots; destruct (activateDot v q) as [[[]|e] q'] eqn:E
  end; simpl in *; subst; eexists _, _; (split; [|done]); by rewrite length_imap.
Qed.

Lemma nextSlide_frame (p : Page) :
  ∃ slides dots,
    length slides = length (allSlides p)
    ∧ exec nextSlide p
      = set_allDots dots (set_allSlides slides
          (set_currentSlide
             (if strict_eq (currentSlide p) (sub (length_ (allSlides p)) (Num 1))
              then Num 0 else add (currentSlide p) (Num 1)) p)).
Proof. apply move_and_activate_frame. Qed.

Lemma previousSlide_frame (p : Page) :
  ∃ slides dots,
    length slides = length (allSlides p)
    ∧ exec previousSlide p
      = set_allDots dots (set_allSlides slides
          (set_currentSlide
             (if strict_eq (currentSlide p) (Num 0)
              then sub (length_ (allSlides p)) (Num 1)
              else sub (currentSlide p) (Num 1)) p)).
Proof. apply move_and_activate_frame. Qed.

Lemma dotContainer_click_frame (target : DotsTarget) (p : Page) :
  ∃ cur slides dots,
    exec (dotContainer_click target) p
    = set_allDots dots (set_allSlides slides (set_currentSlide cur p)).
Proof.
  destruct target as [k|]; simpl.
  - unfold exec, mbind at 1, M_bind at 1, gets at 1.
    destruct (allDots p !! k) as [dot|].
    + destruct (move_and_activate_frame (Number_ (data_slide dot)) p)
        as (slides & dots & _ & H). eauto.
    + exists (currentSlide p), (allSlides p), (allDots p). by destruct p.
  - exists (currentSlide p), (allSlides p), (allDots p). by destruct p.
Qed.

(** ** Loading *)

Lemma script_spec (N : nat) (overflow : string) :
  (1 ≤ N)%nat →
  script (initial N overflow)
  = (Normal tt, set_keydownListeners [EscapeHandler] (goto N 0 (initial N overflow))).
Proof.
  intros HN. unfold script.
  unfold mbind at 1, M_bind at 1, gets at 1.
  change (currentSlide (initial N overflow)) with (Num (Z.of_nat 0)).
  unfold mbind at 1, M_bind at 1. rewrite slideMove_spec.
  change (allSlides (initial N overflow)) with (replicate N "").
  rewrite length_replicate.
  unfold mbind at 1, M_bind at 1, createDots at 1, modify at 1.
  unfold mbind at 1, M_bind at 1.
  rewrite (activateDot_spec N 0); [done| |lia].
  split; simpl.
  - unfold slides_at. by rewrite length_fmap, length_seq.
  - rewrite imap_seq_0. unfold slides_at. rewrite length_fmap, length_seq.
    rewrite <- list_fmap_compose. apply list_fmap_ext. intros i x _; simpl.
    apply toString_nat.
Qed.

Lemma load_spec (N : nat) (overflow : string) :
  (1 ≤ N)%nat →
  load N overflow
  = set_keydownListeners [EscapeHandler] (goto N 0 (initial N overflow)).
Proof. intros HN. unfold load, exec. by rewrite script_spec. Qed.

Lemma Loaded_load (N : nat) (overflow : string) :
  (1 ≤ N)%nat → Loaded N (load N overflow).
Proof.
  intros HN. rewrite load_spec by done. split; simpl.
  - exists 0%nat. split; [lia|done].
  - apply NoDup_singleton.
  - constructor.
Qed.

(** ** The [keydown] listener list *)

Lemma addEventListener_NoDup (l : Listener) (ls : list Listener) :
  NoDup ls → NoDup (addEventListener l ls).
Proof.
  intros Hls. unfold addEventListener. case_bool_decide; [done|].
  apply NoDup_app. split_and!; [done| |apply NoDup_singleton].
  intros x Hx ->%list_elem_of_singleton. done.
Qed.

Lemma addEventListener_elem_of (l l' : Listener) (ls : list Listener) :
  l' ∈ addEventListener l ls ↔ l' = l ∨ l' ∈ ls.
Proof.
  unfold addEventListener. case_bool_decide.
  - split; [by right|by intros [->|?]].
  - rewrite elem_of_app, list_elem_of_singleton. tauto.
Qed.

Lemma removeEventListener_elem_of (l l' : Listener) (ls : list Listener) :
  NoDup ls → l' ∈ removeEventListener l ls ↔ l' ≠ l ∧ l' ∈ ls.
Proof.
  induction 1 as [|x ls Hx Hls IH]; simpl.
  - split; [by intros ?%elem_of_nil|by intros [_ ?%elem_of_nil]].
  - case_bool_decide as Hxl.
    + subst x. rewrite elem_of_cons.
      split; [by intros ?; split; [intros ->|right]|by intros [? [?|?]]].
    + rewrite !elem_of_cons, IH.
      split; [by intros [->|[? ?]]; split; try done; [left|right]|].
      intros [? [?|?]]; [by left|by right].
Qed.

Lemma removeEventListener_NoDup (l : Listener) (ls : list Listener) :
  NoDup ls → NoDup (removeEventListener l ls).
Proof.
  induction 1 as [|x ls Hx Hls IH]; simpl; [constructor|].
  case_bool_decide; [done|].
  constructor; [|done]. rewrite removeEventListener_elem_of by done. tauto.
Qed.

Lemma NoDup_filter_eq_length (l : Listener) (ls : list Listener) :
  NoDup ls →
  length (filter (λ l', l' = l) ls) = if bool_decide (l ∈ ls) then 1%nat else 0%nat.
Proof.
  induction 1 as [|x ls Hx Hls IH]; [done|].
  rewrite filter_cons. destruct (decide (x = l)) as [->|Hne]; simpl.
  - rewrite IH, bool_decide_eq_false_2 by done.
    rewrite bool_decide_eq_true_2; [done|by left].
  - rewrite IH. rewrite (bool_decide_ext (l ∈ x :: ls) (l ∈ ls)); [done|].
    rewrite elem_of_cons. split; [intros [?|?]; by simplify_eq|by right].
Qed.

(** ** The invariant of a loaded page *)

Lemma Loaded_ext (N : nat) (p q : Page) :
  Loaded N p →
  currentSlide q = currentSlide p → allSlides q = allSlides p →
  allDots q = allDots p → keydownListeners q = keydownListeners p →
  Loaded N q.
Proof.
  intros [(k & Hk & Hc & Hs & Hd) Hnd Hesc] E1 E2 E3 E4. split.
  - exists k. split; [done|]. unfold showing. by rewrite E1, E2, E3.
  - by rewrite E4.
  - by rewrite E4.
Qed.

Lemma Loaded_goto (N k : nat) (p : Page) :
  Loaded N p → (k < N)%nat → Loaded N (goto N k p).
Proof.
  intros [_ Hnd Hesc] Hk. split; [|done..].
  exists k. split; [done|apply goto_showing].
Qed.

Lemma Loaded_carousel_of (N : nat) (p : Page) : Loaded N p → carousel_of N p.
Proof. intros [(k & _ & Hs) _ _]. by eapply showing_carousel_of. Qed.

Lemma handleKey_spec (N k : nat) (p : Page) (key : string) :
  carousel_of N p → currentSlide p = Num (Z.of_nat k) → (k < N)%nat →
  handleKey key p
  = (Normal tt,
     if bool_decide (key = "ArrowRight") then goto N (succ_index N k) p
     else if bool_decide (key = "ArrowLeft") then goto N (pred_index N k) p
     else p).
Proof.
  intros Hc Hcur Hk. unfold handleKey, mbind, M_bind.
  case_bool_decide as Hr.
  - subst key. rewrite (nextSlide_spec N k) by done. done.
  - unfold mret at 1, M_ret at 1. case_bool_decide; [|done].
    by apply previousSlide_spec.
Qed.

Lemma closeModal_spec (p : Page) :
  closeModal p
  = (Normal tt,
     mkPage (currentSlide p) (allSlides p) (allDots p) (keydownListeners p)
            (navSticky p) true true
            (default (bodyOverflow p) (previousOverflow p)) (previousOverflow p)).
Proof.
  unfold closeModal. unfold_M. destruct p as [? ? ? ? ? ? ? ? [v|]]; done.
Qed.

Lemma openModal_spec (p : Page) :
  openModal p
  = (Normal tt,
     mkPage (currentSlide p) (allSlides p) (allDots p) (keydownListeners p)
            (navSticky p) false false "hidden" (Some (bodyOverflow p))).
Proof. done. Qed.

Lemma escapeHandler_spec (key : string) (p : Page) :
  escapeHandler key p
  = (Normal tt,
     if bool_decide (key = "Escape") && negb (modalHidden p)
     then exec closeModal p else p).
Proof.
  unfold escapeHandler, mbind, M_bind, gets, exec.
  destruct (_ && _); [|done]. by rewrite closeModal_spec.
Qed.

Lemma call_listener_Loaded (N : nat) (l : Listener) (key : string) (p : Page) :
  Loaded N p →
  returns (call_listener l key) p ∧ Loaded N (exec (call_listener l key) p).
Proof.
  intros HL. pose proof HL as [(k & Hk & Hs) _ _]. destruct l; simpl.
  - unfold returns, exec.
    rewrite (handleKey_spec N k); [|by eapply showing_carousel_of|apply Hs|done].
    split; [by eexists|]. simpl.
    repeat case_bool_decide; [apply Loaded_goto..|]; try done.
    + by apply succ_index_lt.
    + by apply pred_index_lt.
  - unfold returns, exec. rewrite escapeHandler_spec.
    split; [by eexists|]. simpl.
    destruct (_ && _); [|done]. unfold exec. rewrite closeModal_spec.
    by eapply Loaded_ext.
Qed.

Lemma dispatch_Loaded (N : nat) (key : string) (ls : list Listener) (p : Page) :
  Loaded N p →
  Loaded N (foldl (λ q l, exec (call_listener l key) q) p ls).
Proof.
  revert p. induction ls as [|l ls IH]; intros p HL; simpl; [done|].
  apply IH. by apply call_listener_Loaded.
Qed.

Lemma first_isIntersecting_spec (entry : Entry) (more : list Entry) (p : Page) :
  first_isIntersecting (entry :: more) p = (Normal (isIntersecting entry), p).
Proof. done. Qed.

Lemma sliderView_spec (entry : Entry) (more : list Entry) (p : Page) :
  sliderView (entry :: more) p
  = (Normal tt,
     set_keydownListeners
       ((if isIntersecting entry then addEventListener else removeEventListener)
          HandleKey (keydownListeners p)) p).
Proof. unfold sliderView. unfold_M. simpl. by destruct (isIntersecting entry). Qed.

Lemma stickyNav_spec (entry : Entry) (more : list Entry) (p : Page) :
  stickyNav (entry :: more) p
  = (Normal tt, set_navSticky (negb (isIntersecting entry)) p).
Proof. unfold stickyNav. unfold_M. simpl. by destruct (isIntersecting entry). Qed.

(** Every listener returns on a loaded page, unless it is an observer
    callback handed no entry; and it leaves the page loaded. *)
Lemma handler_Loaded (N : nat) (e : Event) (p : Page) :
  Loaded N p → Loaded N (step p e).
Proof.
  intros HL. pose proof HL as [(k & Hk & Hs) Hnd Hesc].
  pose proof (Loaded_carousel_of N p HL) as Hc.
  unfold step, exec. destruct e as [| |target|key|entries|entries| | |];
    cbn [handler].
  - rewrite (nextSlide_spec N k); [|done|apply Hs|done].
    apply Loaded_goto; [done|by apply succ_index_lt].
  - rewrite (previousSlide_spec N k); [|done|apply Hs|done].
    apply Loaded_goto; [done|by apply pred_index_lt].
  - destruct target as [j|].
    + destruct (decide (j < N)%nat).
      * rewrite (dotContainer_click_spec N) by done. by apply Loaded_goto.
      * rewrite (dotContainer_click_outside N); [done..|simpl; lia].
    + done.
  - by apply dispatch_Loaded.
  - destruct entries as [|entry more]; [done|].
    rewrite sliderView_spec. split; simpl.
    + exists k. by split.
    + destruct (isIntersecting entry);
        [by apply addEventListener_NoDup|by apply removeEventListener_NoDup].
    + destruct (isIntersecting entry).
      * apply addEventListener_elem_of. by right.
      * by apply removeEventListener_elem_of.
  - destruct entries as [|entry more]; [done|].
    rewrite stickyNav_spec. by eapply Loaded_ext.
  - rewrite openModal_spec. by eapply Loaded_ext.
  - rewrite closeModal_spec. by eapply Loaded_ext.
  - rewrite closeModal_spec. by eapply Loaded_ext.
Qed.

Lemma run_Loaded (N : nat) (es : list Event) (p : Page) :
  Loaded N p → Loaded N (run es p).
Proof.
  revert p. induction es as [|e es IH]; intros p HL; simpl; [done|].
  apply IH. by apply handler_Loaded.
Qed.

Lemma run_app (es es' : list Event) (p : Page) :
  run (es ++ es') p = run es' (run es p).
Proof. apply foldl_app. Qed.

(** ** Index arithmetic *)

Lemma succ_index_mod (N k : nat) :
  (k < N)%nat → Z.of_nat (succ_index N k) = (Z.of_nat k + 1) mod Z.of_nat N.
Proof.
  intros Hk. unfold succ_index. case_bool_decide as E.
  - replace (Z.of_nat k + 1) with (Z.of_nat N) by lia.
    by rewrite Z_mod_same_full.
  - rewrite Z.mod_small by lia. lia.
Qed.

Lemma pred_index_mod (N k : nat) :
  (k < N)%nat → Z.of_nat (pred_index N k) = (Z.of_nat k - 1) mod Z.of_nat N.
Proof.
  intros Hk. unfold pred_index. case_bool_decide as E.
  - subst k. apply Z.mod_unique with (q := -1); lia.
  - rewrite Z.mod_small by lia. lia.
Qed.

Lemma Loaded_after (N : nat) (overflow : string) (es : list Event) :
  (1 ≤ N)%nat → Loaded N (after N overflow es).
Proof. intros HN. by apply run_Loaded, Loaded_load. Qed.

Lemma dots_at_lookup (N k i : nat) :
  (i < N)%nat → dots_at N k !! i = Some (mkDot (digits i) (bool_decide (i = k))).
Proof.
  intros Hi. unfold dots_at. by rewrite list_lookup_fmap, lookup_seq_lt.
Qed.

Lemma filter_active_seq (k s n : nat) :
  filter (λ dot, dot_active dot = true)
         ((λ i : nat, mkDot (digits i) (bool_decide (i = k))) <$> seq s n)
  = if bool_decide (s ≤ k < s + n)%nat then [mkDot (digits k) true] else [].
Proof.
  revert s. induction n as [|n IH]; intros s; simpl.
  - rewrite bool_decide_eq_false_2; [done|lia].
  - rewrite filter_cons, IH; simpl. destruct (decide (s = k)) as [->|Hne].
    + rewrite bool_decide_eq_true_2 by done. simpl.
      rewrite bool_decide_eq_false_2 by lia.
      rewrite bool_decide_eq_true_2; [done|lia].
    + rewrite (bool_decide_eq_false_2 (s = k)) by done. simpl.
      rewrite (bool_decide_ext (S s ≤ k < S (s + n))%nat (s ≤ k < s + S n)%nat);
        [done|lia].
Qed.

Lemma active_dots_showing (N k : nat) (p : Page) :
  (k < N)%nat → showing N k p → active_dots p = [mkDot (digits k) true].
Proof.
  intros Hk (_ & _ & Hd). unfold active_dots. rewrite Hd. unfold dots_at.
  rewrite filter_active_seq. rewrite bool_decide_eq_true_2; [done|lia].
Qed.

(** * The carousel index *)

(** C1.  With [N >= 1] slides, after the script has run and after any
    finite sequence of events (clicks on the two buttons and on the dot
    strip, and every other event the page can receive), [currentSlide] is
    a number [k], never [NaN], with [0 <= k < N]; from there the right
    button moves it to [(k + 1) mod N] and the left button to
    [(k - 1) mod N], so both directions wrap around. *)
Theorem currentSlide_in_range (N : nat) (overflow : string) (es : list Event) :
  (1 ≤ N)%nat →
  ∃ k : Z,
    currentSlide (after N overflow es) = Num k
    ∧ 0 ≤ k < Z.of_nat N
    ∧ currentSlide (step (after N overflow es) Click_rightBtn)
      = Num ((k + 1) mod Z.of_nat N)
    ∧ currentSlide (step (after N overflow es) Click_leftBtn)
      = Num ((k - 1) mod Z.of_nat N).
Proof.
  intros HN.
  pose proof (Loaded_after N overflow es HN) as HL.
  pose proof (Loaded_carousel_of N _ HL) as Hc.
  destruct HL as [(k & Hk & Hs) _ _]. pose proof Hs as (Hcur & _).
  exists (Z.of_nat k). split_and!; [done|lia..| |].
  - unfold step, exec. cbn [handler].
    rewrite (nextSlide_spec N k) by done. simpl.
    by rewrite succ_index_mod.
  - unfold step, exec. cbn [handler].
    rewrite (previousSlide_spec N k) by done. simpl.
    by rewrite pred_index_mod.
Qed.

Lemma currentSlide_in_range_witness :
  (1 ≤ 4)%nat
  ∧ ∃ k : Z,
      currentSlide (after 4 "" [Click_rightBtn; Click_dotContainer (OnDot 3)]) = Num k
      ∧ 0 ≤ k < Z.of_nat 4
      ∧ currentSlide (step (after 4 "" [Click_rightBtn; Click_dotContainer (OnDot 3)])
                           Click_rightBtn)
        = Num ((k + 1) mod Z.of_nat 4)
      ∧ currentSlide (step (after 4 "" [Click_rightBtn; Click_dotContainer (OnDot 3)])
                           Click_leftBtn)
        = Num ((k - 1) mod Z.of_nat 4).
Proof.
  split; [lia|].
  apply (currentSlide_in_range 4 "" [Click_rightBtn; Click_dotContainer (OnDot 3)]).
  lia.
Defined.

(** The scenario of the specification: four slides, [next] four times
    comes back to slide 0, then [previous] wraps to slide 3. *)
Example four_slides_scenario :
  currentSlide <$> [ after 4 "" [Click_rightBtn];
                     after 4 "" [Click_rightBtn; Click_rightBtn; Click_rightBtn; Click_rightBtn];
                     after 4 "" [Click_rightBtn; Click_rightBtn; Click_rightBtn; Click_rightBtn;
                                 Click_leftBtn] ]
  = [Num 1; Num 0; Num 3].
Proof. vm_compute. reflexivity. Qed.

(** C2.  With [N >= 1] slides, after the script has run and after any
    sequence of events, exactly one dot carries the active class; it is
    the dot at position [currentSlide], and the number in its
    [data-slide] attribute is [currentSlide]. *)
Theorem one_active_dot (N : nat) (overflow : string) (es : list Event) :
  (1 ≤ N)%nat →
  ∃ (k : nat) (dot : Dot),
    currentSlide (after N overflow es) = Num (Z.of_nat k)
    ∧ allDots (after N overflow es) !! k = Some dot
    ∧ active_dots (after N overflow es) = [dot]
    ∧ Number_ (data_slide dot) = currentSlide (after N overflow es).
Proof.
  intros HN.
  destruct (Loaded_after N overflow es HN) as [(k & Hk & Hs) _ _].
  exists k, (mkDot (digits k) true).
  pose proof Hs as (Hcur & _ & Hd). split_and!.
  - done.
  - rewrite Hd, dots_at_lookup by done. by rewrite bool_decide_eq_true_2.
  - by apply (active_dots_showing N).
  - simpl. by rewrite Number_digits.
Qed.

Lemma one_active_dot_witness :
  (1 ≤ 3)%nat
  ∧ ∃ (k : nat) (dot : Dot),
      currentSlide (after 3 "" [Click_leftBtn; Keydown "ArrowRight"]) = Num (Z.of_nat k)
      ∧ allDots (after 3 "" [Click_leftBtn; Keydown "ArrowRight"]) !! k = Some dot
      ∧ active_dots (after 3 "" [Click_leftBtn; Keydown "ArrowRight"]) = [dot]
      ∧ Number_ (data_slide dot)
        = currentSlide (after 3 "" [Click_leftBtn; Keydown "ArrowRight"]).
Proof.
  split; [lia|].
  apply (one_active_dot 3 "" [Click_leftBtn; Keydown "ArrowRight"]). lia.
Defined.

(** C3.  On a page with [N] slides whose [currentSlide] is an index [i]
    with [0 <= i < N], a click on the right button followed by a click
    on the left button leaves [currentSlide] at [i]. *)
Theorem previous_inverts_next (N : nat) (i : Z) (p : Page) :
  length (allSlides p) = N → currentSlide p = Num i → 0 ≤ i < Z.of_nat N →
  currentSlide (run [Click_rightBtn; Click_leftBtn] p) = Num i.
Proof.
  intros Hlen Hcur Hi. simpl. unfold step at 2; cbn [handler].
  destruct (nextSlide_frame p) as (slides & dots & Hslides & ->).
  unfold step; cbn [handler].
  destruct (previousSlide_frame
              (set_allDots dots (set_allSlides slides
                 (set_currentSlide
                    (if strict_eq (currentSlide p) (sub (length_ (allSlides p)) (Num 1))
                     then Num 0 else add (currentSlide p) (Num 1)) p))))
    as (slides' & dots' & _ & ->).
  simpl. rewrite Hcur, Hslides, Hlen. unfold length_; simpl.
  case_bool_decide as E; unfold strict_eq, sub, arith.
  - subst i. by rewrite bool_decide_eq_true_2.
  - rewrite bool_decide_eq_false_2 by lia. f_equal. lia.
Qed.

Lemma previous_inverts_next_witness :
  length (allSlides (after 4 "" [Click_leftBtn])) = 4%nat
  ∧ currentSlide (after 4 "" [Click_leftBtn]) = Num 3
  ∧ 0 ≤ 3 < Z.of_nat 4
  ∧ currentSlide (run [Click_rightBtn; Click_leftBtn] (after 4 "" [Click_leftBtn])) = Num 3.
Proof.
  assert (length (allSlides (after 4 "" [Click_leftBtn])) = 4%nat) as H1
    by (vm_compute; reflexivity).
  assert (currentSlide (after 4 "" [Click_leftBtn]) = Num 3) as H2
    by (vm_compute; reflexivity).
  assert (0 ≤ 3 < Z.of_nat 4) as H3 by lia.
  split_and!; [done..|].
  exact (previous_inverts_next 4 3 (after 4 "" [Click_leftBtn]) H1 H2 H3).
Defined.

(** On a loaded page the two clicks restore the whole page, not only
    the index. *)
Lemma next_previous_page (N : nat) (overflow : string) (es : list Event) :
  (1 ≤ N)%nat →
  run [Click_rightBtn; Click_leftBtn] (after N overflow es) = after N overflow es.
Proof.
  intros HN.
  pose proof (Loaded_after N overflow es HN) as HL.
  pose proof (Loaded_carousel_of N _ HL) as Hc.
  destruct HL as [(k & Hk & Hs) _ _]. pose proof Hs as (Hcur & _).
  simpl. unfold step, exec at 2. cbn [handler].
  rewrite (nextSlide_spec N k) by done. simpl. unfold exec.
  rewrite (previousSlide_spec N (succ_index N k));
    [|apply goto_carousel_of|done|by apply succ_index_lt].
  simpl.
  assert (pred_index N (succ_index N k) = k) as ->.
  { unfold pred_index, succ_index. repeat case_bool_decide; lia. }
  rewrite <- (showing_goto N k (after N overflow es)) at 2 by done.
  done.
Qed.

(** C4.  On a page with [N] slides and the dots [createDots] made,
    whatever its index, transforms and active dots are, a click on dot
    [k < N] returns, sets [currentSlide] to [k], gives slide [i] the
    transform for [100 * (i - k)] percent, and leaves dot [k] active
    and every other dot inactive. *)
Theorem dot_click_goes_to (N k : nat) (p : Page) :
  carousel_of N p → (k < N)%nat →
  returns (dotContainer_click (OnDot k)) p
  ∧ currentSlide (step p (Click_dotContainer (OnDot k))) = Num (Z.of_nat k)
  ∧ allSlides (step p (Click_dotContainer (OnDot k))) = slides_at N (Z.of_nat k)
  ∧ length (allDots (step p (Click_dotContainer (OnDot k)))) = N
  ∧ ∀ (i : nat) (dot : Dot),
      allDots (step p (Click_dotContainer (OnDot k))) !! i = Some dot →
      data_slide dot = digits i ∧ (dot_active dot = true ↔ i = k).
Proof.
  intros Hc Hk. unfold returns, step, exec. cbn [handler].
  rewrite (dotContainer_click_spec N) by done. simpl.
  split_and!; [by eexists|done..| |].
  - unfold dots_at. by rewrite length_fmap, length_seq.
  - intros i dot Hi.
    assert (i < N)%nat as HiN.
    { apply lookup_lt_Some in Hi. unfold dots_at in Hi.
      by rewrite length_fmap, length_seq in Hi. }
    rewrite dots_at_lookup in Hi by done. simplify_eq/=.
    split; [done|]. by rewrite bool_decide_eq_true.
Qed.

Lemma dot_click_goes_to_witness :
  carousel_of 4 (after 4 "" [])
  ∧ (2 < 4)%nat
  ∧ returns (dotContainer_click (OnDot 2)) (after 4 "" [])
  ∧ currentSlide (step (after 4 "" []) (Click_dotContainer (OnDot 2))) = Num (Z.of_nat 2)
  ∧ allSlides (step (after 4 "" []) (Click_dotContainer (OnDot 2)))
    = slides_at 4 (Z.of_nat 2)
  ∧ length (allDots (step (after 4 "" []) (Click_dotContainer (OnDot 2)))) = 4%nat
  ∧ ∀ (i : nat) (dot : Dot),
      allDots (step (after 4 "" []) (Click_dotContainer (OnDot 2))) !! i = Some dot →
      data_slide dot = digits i ∧ (dot_active dot = true ↔ i = 2%nat).
Proof.
  assert (carousel_of 4 (after 4 "" [])) as H1 by (split; vm_compute; reflexivity).
  assert (2 < 4)%nat as H2 by lia.
  split; [exact H1|]. split; [exact H2|].
  exact (dot_click_goes_to 4 2 (after 4 "" []) H1 H2).
Defined.

(** The scenario of the specification: four slides, index 0, a click on
    indicator 2. *)
Example dot_click_scenario :
  currentSlide (after 4 "" [Click_dotContainer (OnDot 2)]) = Num 2
  ∧ dot_active <$> allDots (after 4 "" [Click_dotContainer (OnDot 2)])
    = [false; false; true; false].
Proof. split; vm_compute; reflexivity. Qed.

(** ** Frames, on any page *)

Lemma nextSlide_outside (p : Page) :
  outside_carousel (exec nextSlide p) = outside_carousel p.
Proof. by destruct (nextSlide_frame p) as (? & ? & _ & ->). Qed.

Lemma previousSlide_outside (p : Page) :
  outside_carousel (exec previousSlide p) = outside_carousel p.
Proof. by destruct (previousSlide_frame p) as (? & ? & _ & ->). Qed.

Lemma dotContainer_click_outside_carousel (target : DotsTarget) (p : Page) :
  outside_carousel (exec (dotContainer_click target) p) = outside_carousel p.
Proof. by destruct (dotContainer_click_frame target p) as (? & ? & ? & ->). Qed.

Lemma handleKey_exec (key : string) (p : Page) :
  exec (handleKey key) p
  = if bool_decide (key = "ArrowRight") then exec nextSlide p
    else if bool_decide (key = "ArrowLeft") then exec previousSlide p
    else p.
Proof.
  unfold handleKey, exec, mbind, M_bind. case_bool_decide as Hr.
  - subst key. rewrite bool_decide_eq_false_2 by done.
    by destruct (nextSlide p) as [[[]|e] q].
  - unfold mret at 1, M_ret at 1. by case_bool_decide.
Qed.

Lemma handleKey_outside (key : string) (p : Page) :
  outside_carousel (exec (handleKey key) p) = outside_carousel p.
Proof.
  rewrite handleKey_exec. repeat case_bool_decide;
    [apply nextSlide_outside|apply previousSlide_outside|done].
Qed.

Lemma call_listener_keydownListeners (l : Listener) (key : string) (p : Page) :
  keydownListeners (exec (call_listener l key) p) = keydownListeners p.
Proof.
  destruct l; simpl.
  - pose proof (handleKey_outside key p) as H. by simplify_eq.
  - unfold exec at 1. rewrite escapeHandler_spec; simpl.
    destruct (_ && _); [|done]. unfold exec. by rewrite closeModal_spec.
Qed.

Lemma dispatch_keydownListeners (key : string) (ls : list Listener) (p : Page) :
  keydownListeners (foldl (λ q l, exec (call_listener l key) q) p ls)
  = keydownListeners p.
Proof.
  revert p. induction ls as [|l ls IH]; intros p; simpl; [done|].
  by rewrite IH, call_listener_keydownListeners.
Qed.

(** Only the observer of the slider writes the [keydown] list. *)
Lemma step_keydownListeners (p : Page) (e : Event) :
  keydownListeners (step p e)
  = match e with
    | Intersection_slider (entry :: _) =>
        (if isIntersecting entry then addEventListener else removeEventListener)
          HandleKey (keydownListeners p)
    | _ => keydownListeners p
    end.
Proof.
  unfold step. destruct e as [| |target|key|entries|entries| | |]; cbn [handler].
  - pose proof (nextSlide_outside p) as H. by simplify_eq.
  - pose proof (previousSlide_outside p) as H. by simplify_eq.
  - pose proof (dotContainer_click_outside_carousel target p) as H. by simplify_eq.
  - apply dispatch_keydownListeners.
  - destruct entries as [|entry more]; [done|].
    unfold exec. by rewrite sliderView_spec.
  - destruct entries as [|entry more]; [done|].
    unfold exec. by rewrite stickyNav_spec.
  - done.
  - unfold exec. by rewrite closeModal_spec.
  - unfold exec. by rewrite closeModal_spec.
Qed.

Lemma load_keydownListeners (N : nat) (overflow : string) :
  keydownListeners (load N overflow) = []
  ∨ keydownListeners (load N overflow) = [EscapeHandler].
Proof.
  unfold load, script, exec, mbind, M_bind, gets, slideMove, createDots, modify.
  match goal with
  | |- context [activateDot ?c ?q] =>
      destruct (activateDot_frame c q) as [dots Hdots];
      unfold exec in Hdots; destruct (activateDot c q) as [[[]|e] q'] eqn:E
  end; simpl in *; subst; simpl; auto.
Qed.

Lemma NoDup_after (N : nat) (overflow : string) (es : list Event) :
  NoDup (keydownListeners (after N overflow es)).
Proof.
  unfold after.
  assert (NoDup (keydownListeners (load N overflow))) as H.
  { destruct (load_keydownListeners N overflow) as [-> | ->];
      [constructor|apply NoDup_singleton]. }
  revert H. generalize (load N overflow).
  induction es as [|e es IH]; intros p Hp; simpl; [done|].
  apply IH. rewrite step_keydownListeners.
  destruct e as [| |?|?|[|[[]] ?]|?| | |]; try done.
  - by apply addEventListener_NoDup.
  - by apply removeEventListener_NoDup.
Qed.

Lemma attached_add (l : Listener) (ls : list Listener) :
  NoDup ls →
  length (filter (λ l', l' = l) (addEventListener l ls)) = 1%nat.
Proof.
  intros Hnd. rewrite NoDup_filter_eq_length by by apply addEventListener_NoDup.
  rewrite bool_decide_eq_true_2; [done|].
  apply addEventListener_elem_of. by left.
Qed.

Lemma attached_remove (l : Listener) (ls : list Listener) :
  NoDup ls →
  length (filter (λ l', l' = l) (removeEventListener l ls)) = 0%nat.
Proof.
  intros Hnd. rewrite NoDup_filter_eq_length by by apply removeEventListener_NoDup.
  rewrite bool_decide_eq_false_2; [done|].
  rewrite removeEventListener_elem_of by done. tauto.
Qed.

Lemma addEventListener_again (l : Listener) (ls : list Listener) :
  addEventListener l (addEventListener l ls) = addEventListener l ls.
Proof.
  unfold addEventListener at 1. rewrite bool_decide_eq_true_2; [done|].
  apply addEventListener_elem_of. by left.
Qed.

(** * The keyboard gate *)

(** C5.  Whatever events the page has received, [handleKey] is on the
    [keydown] list of the document at most once.  A callback of the
    slider observer that reports the slider visible leaves it there
    exactly once, a second such callback changes nothing, and a callback
    that reports it not visible leaves it there zero times. *)
Theorem handleKey_attached_once
    (N : nat) (overflow : string) (es : list Event) (more more' : list Entry) :
  (attached HandleKey (after N overflow es) ≤ 1)%nat
  ∧ attached HandleKey
      (step (after N overflow es) (Intersection_slider (mkEntry true :: more)))
    = 1%nat
  ∧ keydownListeners
      (run [Intersection_slider (mkEntry true :: more);
            Intersection_slider (mkEntry true :: more')] (after N overflow es))
    = keydownListeners
        (step (after N overflow es) (Intersection_slider (mkEntry true :: more)))
  ∧ attached HandleKey
      (step (after N overflow es) (Intersection_slider (mkEntry false :: more)))
    = 0%nat.
Proof.
  pose proof (NoDup_after N overflow es) as Hnd.
  unfold attached. split_and!.
  - rewrite NoDup_filter_eq_length by done. case_bool_decide; lia.
  - rewrite step_keydownListeners; simpl. by apply attached_add.
  - unfold run; cbn [foldl]. rewrite !step_keydownListeners; simpl.
    apply addEventListener_again.
  - rewrite step_keydownListeners; simpl. by apply attached_remove.
Qed.

(** An enter, an enter, an exit, an enter on three slides: the list
    never holds [handleKey] twice. *)
Example listeners_scenario :
  keydownListeners <$>
    [ after 3 "" [Intersection_slider [mkEntry true]];
      after 3 "" [Intersection_slider [mkEntry true]; Intersection_slider [mkEntry true]];
      after 3 "" [Intersection_slider [mkEntry true]; Intersection_slider [mkEntry true];
                  Intersection_slider [mkEntry false]];
      after 3 "" [Intersection_slider [mkEntry true]; Intersection_slider [mkEntry true];
                  Intersection_slider [mkEntry false]; Intersection_slider [mkEntry true]] ]
  = [ [EscapeHandler; HandleKey]; [EscapeHandler; HandleKey]; [EscapeHandler];
      [EscapeHandler; HandleKey] ].
Proof. vm_compute. reflexivity. Qed.

(** ** Dispatch of a key *)

Lemma escapeHandler_currentSlide (key : string) (p : Page) :
  currentSlide (exec (escapeHandler key) p) = currentSlide p.
Proof.
  unfold exec at 1. rewrite escapeHandler_spec; simpl.
  destruct (_ && _); [|done]. unfold exec. by rewrite closeModal_spec.
Qed.

Lemma dispatch_other_key (key : string) (ls : list Listener) (p : Page) :
  key ≠ "ArrowRight" → key ≠ "ArrowLeft" →
  currentSlide (foldl (λ q l, exec (call_listener l key) q) p ls) = currentSlide p.
Proof.
  intros Hr Hl. revert p. induction ls as [|l ls IH]; intros p; simpl; [done|].
  rewrite IH. destruct l; simpl.
  - rewrite handleKey_exec. by rewrite !bool_decide_eq_false_2.
  - apply escapeHandler_currentSlide.
Qed.

Lemma escapeHandler_ArrowRight (p : Page) :
  exec (escapeHandler "ArrowRight") p = p.
Proof. unfold exec. by rewrite escapeHandler_spec. Qed.

Lemma dispatch_ArrowRight (N : nat) (ls : list Listener) (k : nat) (p : Page) :
  showing N k p → (k < N)%nat →
  showing N (Nat.iter (length (filter (λ l, l = HandleKey) ls)) (succ_index N) k)
            (foldl (λ q l, exec (call_listener l "ArrowRight") q) p ls).
Proof.
  revert k p. induction ls as [|l ls IH]; intros k p Hs Hk; [done|].
  cbn [foldl]. destruct l; cbn [call_listener].
  - rewrite filter_cons_True by done. cbn [length].
    rewrite Nat.iter_succ_r. apply IH; [|by apply succ_index_lt].
    unfold exec.
    rewrite (handleKey_spec N k); [|by eapply showing_carousel_of|apply Hs|done].
    simpl. apply goto_showing.
  - rewrite filter_cons_False by done. rewrite escapeHandler_ArrowRight. by apply IH.
Qed.

Lemma keydown_ArrowRight (N k : nat) (p : Page) :
  showing N k p → (k < N)%nat →
  showing N (Nat.iter (attached HandleKey p) (succ_index N) k)
            (step p (Keydown "ArrowRight")).
Proof. intros Hs Hk. by apply dispatch_ArrowRight. Qed.

Lemma observer_showing (N k : nat) (p : Page) (entries : list Entry) :
  showing N k p → showing N k (step p (Intersection_slider entries)).
Proof.
  intros Hs. unfold step, exec; cbn [handler].
  destruct entries as [|entry more]; [done|]. by rewrite sliderView_spec.
Qed.

Lemma attached_enter (p : Page) (more : list Entry) :
  NoDup (keydownListeners p) →
  attached HandleKey (step p (Intersection_slider (mkEntry true :: more))) = 1%nat.
Proof.
  intros Hnd. unfold attached. rewrite step_keydownListeners; simpl.
  by apply attached_add.
Qed.

Lemma attached_exit (p : Page) (more : list Entry) :
  NoDup (keydownListeners p) →
  attached HandleKey (step p (Intersection_slider (mkEntry false :: more))) = 0%nat.
Proof.
  intros Hnd. unfold attached. rewrite step_keydownListeners; simpl.
  by apply attached_remove.
Qed.

Lemma attached_keydown (l : Listener) (key : string) (p : Page) :
  attached l (step p (Keydown key)) = attached l p.
Proof. unfold attached. by rewrite step_keydownListeners. Qed.

Lemma succ_index_twice_mod (N k : nat) :
  (k < N)%nat →
  Z.of_nat (succ_index N (succ_index N k)) = (Z.of_nat k + 2) mod Z.of_nat N.
Proof.
  intros Hk. rewrite succ_index_mod by by apply succ_index_lt.
  rewrite succ_index_mod by done. rewrite Zplus_mod_idemp_l. f_equal. lia.
Qed.

(** C6.  With [N >= 1] slides and [currentSlide] at [k]: once the
    observer has reported the slider visible, two presses of ArrowRight
    bring [currentSlide] to [(k + 2) mod N]; once it has then reported
    the slider not visible, a further press of ArrowRight changes
    nothing; and on any page whatever, a key other than ArrowRight and
    ArrowLeft leaves [currentSlide] as it is. *)
Theorem arrow_keys_gated
    (N : nat) (overflow : string) (es : list Event) (more more' : list Entry) (k : Z) :
  (1 ≤ N)%nat →
  currentSlide (after N overflow es) = Num k →
  currentSlide
    (run [Intersection_slider (mkEntry true :: more);
          Keydown "ArrowRight"; Keydown "ArrowRight"] (after N overflow es))
  = Num ((k + 2) mod Z.of_nat N)
  ∧ currentSlide
      (run [Intersection_slider (mkEntry true :: more);
            Keydown "ArrowRight"; Keydown "ArrowRight";
            Intersection_slider (mkEntry false :: more');
            Keydown "ArrowRight"] (after N overflow es))
    = Num ((k + 2) mod Z.of_nat N)
  ∧ currentSlide
      (run [Intersection_slider (mkEntry false :: more');
            Keydown "ArrowRight"] (after N overflow es))
    = Num k
  ∧ ∀ (q : Page) (key : string),
      key ≠ "ArrowRight" → key ≠ "ArrowLeft" →
      currentSlide (step q (Keydown key)) = currentSlide q.
Proof.
  intros HN Hcur.
  pose proof (NoDup_after N overflow es) as Hnd.
  destruct (Loaded_after N overflow es HN) as [(k0 & Hk0 & Hs) _ _].
  assert (k = Z.of_nat k0) as -> by (destruct Hs as [E _]; congruence).
  set (p := after N overflow es) in *.
  pose proof (observer_showing N k0 p (mkEntry true :: more) Hs) as Hs0.
  pose proof (keydown_ArrowRight N k0 _ Hs0 Hk0) as Hs1.
  rewrite attached_enter in Hs1 by done. cbn [Nat.iter nat_rect] in Hs1.
  pose proof (keydown_ArrowRight N _ _ Hs1 (succ_index_lt N k0 Hk0)) as Hs2.
  rewrite attached_keydown, attached_enter in Hs2 by done.
  cbn [Nat.iter nat_rect] in Hs2.
  split_and!.
  - unfold run; cbn [foldl]. destruct Hs2 as [-> _].
    by rewrite succ_index_twice_mod.
  - unfold run; cbn [foldl].
    match type of Hs2 with showing _ _ ?q => set (p3 := q) in * end.
    assert (NoDup (keydownListeners p3)) as Hnd3.
    { unfold p3. rewrite !step_keydownListeners; simpl.
      by apply addEventListener_NoDup. }
    pose proof (keydown_ArrowRight N _ _
                  (observer_showing N _ p3 (mkEntry false :: more') Hs2)
                  (succ_index_lt N _ (succ_index_lt N k0 Hk0))) as H.
    rewrite attached_exit in H by done. cbn [Nat.iter nat_rect] in H.
    destruct H as [-> _]. by rewrite succ_index_twice_mod.
  - unfold run; cbn [foldl].
    pose proof (keydown_ArrowRight N k0 _
                  (observer_showing N k0 p (mkEntry false :: more') Hs) Hk0) as H.
    rewrite attached_exit in H by done. cbn [Nat.iter nat_rect] in H.
    by destruct H as [-> _].
  - intros q key Hr Hl. unfold step, exec; cbn [handler]. simpl.
    by apply dispatch_other_key.
Qed.

Lemma arrow_keys_gated_witness :
  (1 ≤ 3)%nat
  ∧ currentSlide (after 3 "" [Click_rightBtn; Click_rightBtn]) = Num 2
  ∧ currentSlide
      (run [Intersection_slider (mkEntry true :: []);
            Keydown "ArrowRight"; Keydown "ArrowRight"]
           (after 3 "" [Click_rightBtn; Click_rightBtn]))
    = Num ((2 + 2) mod Z.of_nat 3)
  ∧ currentSlide
      (run [Intersection_slider (mkEntry true :: []);
            Keydown "ArrowRight"; Keydown "ArrowRight";
            Intersection_slider (mkEntry false :: []);
            Keydown "ArrowRight"] (after 3 "" [Click_rightBtn; Click_rightBtn]))
    = Num ((2 + 2) mod Z.of_nat 3)
  ∧ currentSlide
      (run [Intersection_slider (mkEntry false :: []);
            Keydown "ArrowRight"] (after 3 "" [Click_rightBtn; Click_rightBtn]))
    = Num 2
  ∧ ∀ (q : Page) (key : string),
      key ≠ "ArrowRight" → key ≠ "ArrowLeft" →
      currentSlide (step q (Keydown key)) = currentSlide q.
Proof.
  assert (1 ≤ 3)%nat as H1 by lia.
  assert (currentSlide (after 3 "" [Click_rightBtn; Click_rightBtn]) = Num 2) as H2
    by (vm_compute; reflexivity).
  split; [exact H1|]. split; [exact H2|].
  exact (arrow_keys_gated 3 "" [Click_rightBtn; Click_rightBtn] [] [] 2 H1 H2).
Defined.

(** ** The modal and the overflow of the body *)

Lemma saved_outside (v : string) (p q : Page) :
  outside_carousel q = outside_carousel p → saved v p → saved v q.
Proof. unfold outside_carousel, saved. intros [= _ _ -> _ -> ->]. done. Qed.

Lemma saved_closeModal (v : string) (p : Page) :
  saved v p → saved v (exec closeModal p) ∧ bodyOverflow (exec closeModal p) = v.
Proof.
  intros [Hprev _]. unfold exec. rewrite closeModal_spec. unfold saved; simpl.
  rewrite Hprev; simpl. auto.
Qed.

Lemma saved_openModal (p : Page) :
  saved (bodyOverflow p) (step p Click_showModal).
Proof. unfold saved; simpl. auto. Qed.

Lemma call_listener_saved (v : string) (l : Listener) (key : string) (p : Page) :
  saved v p → saved v (exec (call_listener l key) p).
Proof.
  intros Hs. destruct l; simpl.
  - eapply saved_outside; [apply handleKey_outside|done].
  - unfold exec at 1. rewrite escapeHandler_spec; simpl.
    destruct (_ && _); [|done]. by apply saved_closeModal.
Qed.

Lemma dispatch_saved (v : string) (key : string) (ls : list Listener) (p : Page) :
  saved v p → saved v (foldl (λ q l, exec (call_listener l key) q) p ls).
Proof.
  revert p. induction ls as [|l ls IH]; intros p Hs; simpl; [done|].
  by apply IH, call_listener_saved.
Qed.

Lemma step_saved (v : string) (p : Page) (e : Event) :
  e ≠ Click_showModal → saved v p → saved v (step p e).
Proof.
  intros He Hs. unfold step.
  destruct e as [| |target|key|entries|entries| | |]; cbn [handler]; [..|done| |].
  - eapply saved_outside; [apply nextSlide_outside|done].
  - eapply saved_outside; [apply previousSlide_outside|done].
  - eapply saved_outside; [apply dotContainer_click_outside_carousel|done].
  - by apply dispatch_saved.
  - destruct entries as [|entry more]; [done|].
    unfold exec. by rewrite sliderView_spec.
  - destruct entries as [|entry more]; [done|].
    unfold exec. by rewrite stickyNav_spec.
  - by apply saved_closeModal.
  - by apply saved_closeModal.
Qed.

Lemma run_saved (v : string) (es : list Event) (p : Page) :
  Click_showModal ∉ es → saved v p → saved v (run es p).
Proof.
  revert p. induction es as [|e es IH]; intros p Hes Hs; simpl; [done|].
  apply not_elem_of_cons in Hes as [He Hes].
  apply IH; [done|]. by apply step_saved.
Qed.

Lemma removeEventListener_other (l l' : Listener) (ls : list Listener) :
  l' ≠ l → l' ∈ ls → l' ∈ removeEventListener l ls.
Proof.
  intros Hne. induction ls as [|x ls IH]; simpl; [done|].
  rewrite elem_of_cons. intros [->|Hin].
  - rewrite bool_decide_eq_false_2 by done. by left.
  - case_bool_decide; [done|]. right. by apply IH.
Qed.

Lemma step_escape_attached (p : Page) (e : Event) :
  EscapeHandler ∈ keydownListeners p → EscapeHandler ∈ keydownListeners (step p e).
Proof.
  intros H. rewrite step_keydownListeners.
  destruct e as [| |?|?|[|[[]] ?]|?| | |]; try done.
  - apply addEventListener_elem_of. by right.
  - by apply removeEventListener_other.
Qed.

Lemma run_escape_attached (es : list Event) (p : Page) :
  EscapeHandler ∈ keydownListeners p → EscapeHandler ∈ keydownListeners (run es p).
Proof.
  revert p. induction es as [|e es IH]; intros p H; simpl; [done|].
  by apply IH, step_escape_attached.
Qed.

Lemma dispatch_Escape (v : string) (ls : list Listener) (p : Page) :
  saved v p →
  EscapeHandler ∈ ls ∨ bodyOverflow p = v →
  bodyOverflow (foldl (λ q l, exec (call_listener l "Escape") q) p ls) = v.
Proof.
  revert p. induction ls as [|l ls IH]; intros p Hs H; simpl.
  - destruct H as [H|H]; [by apply elem_of_nil in H|done].
  - apply IH; [by apply call_listener_saved|].
    destruct l; simpl.
    + rewrite handleKey_exec. rewrite !bool_decide_eq_false_2 by done.
      destruct H as [H|H]; [|by right].
      apply elem_of_cons in H as [?|?]; [done|by left].
    + right. unfold exec at 1. rewrite escapeHandler_spec; simpl.
      destruct (modalHidden p) eqn:Hh; simpl.
      * destruct Hs as [_ [?|[_ ?]]]; [done|congruence].
      * by apply saved_closeModal.
Qed.

(** * Observer callbacks *)

(** C7, as the code has it.  [sliderView] and [stickyNav] read
    [isIntersecting] off the first entry.  Handed an empty array they
    raise a [TypeError] and change nothing; handed an array with a first
    entry they return, and what they do depends on that entry alone:
    [sliderView] attaches [handleKey] when it intersects and detaches it
    when it does not, [stickyNav] makes the navigation sticky exactly
    when it does not intersect. *)
Theorem observer_callbacks_read_first_entry
    (p : Page) (entry : Entry) (more : list Entry) :
  sliderView [] p = (Throw TypeError, p)
  ∧ stickyNav [] p = (Throw TypeError, p)
  ∧ sliderView (entry :: more) p
    = (Normal tt,
       set_keydownListeners
         ((if isIntersecting entry then addEventListener else removeEventListener)
            HandleKey (keydownListeners p)) p)
  ∧ stickyNav (entry :: more) p
    = (Normal tt, set_navSticky (negb (isIntersecting entry)) p).
Proof.
  split_and!; [done|done|apply sliderView_spec|apply stickyNav_spec].
Qed.

(** C7, as stated, fails: with the slider visible and [handleKey]
    attached, a callback with no entry raises and leaves the listener
    attached, where a callback reporting "not intersecting" detaches
    it; and [stickyNav] with no entry raises and leaves the navigation
    as it was, where "not intersecting" makes it sticky. *)
Lemma empty_entries_raise :
  fst (sliderView [] (after 1 "" [Intersection_slider [mkEntry true]]))
  = Throw TypeError
  ∧ keydownListeners
      (step (after 1 "" [Intersection_slider [mkEntry true]]) (Intersection_slider []))
    = [EscapeHandler; HandleKey]
  ∧ keydownListeners
      (step (after 1 "" [Intersection_slider [mkEntry true]])
            (Intersection_slider [mkEntry false]))
    = [EscapeHandler]
  ∧ fst (stickyNav [] (after 1 "" [])) = Throw TypeError
  ∧ navSticky (step (after 1 "" []) (Intersection_header [])) = false
  ∧ navSticky (step (after 1 "" []) (Intersection_header [mkEntry false])) = true.
Proof. repeat split; vm_compute; reflexivity. Qed.

(** * The modal *)

(** One cycle of the modal.  Take any page on which the Escape listener
    is registered.  Open the modal; let any events follow that do not
    call [openModal] again; then close it with the close button, a click
    on the overlay, or the Escape key.  The overflow of the body is then
    what it was before the open click. *)
Theorem closing_restores_overflow (p : Page) (es : list Event) (close : Event) :
  EscapeHandler ∈ keydownListeners p →
  Click_showModal ∉ es →
  close ∈ [Click_btnClose; Click_overlay; Keydown "Escape"] →
  bodyOverflow (run (Click_showModal :: (es ++ [close])) p) = bodyOverflow p.
Proof.
  intros Hesc Hes Hclose.
  change (Click_showModal :: (es ++ [close])) with ([Click_showModal] ++ (es ++ [close])).
  rewrite !run_app. change (run [Click_showModal] p) with (step p Click_showModal).
  pose proof (run_saved _ es _ Hes (saved_openModal p)) as Hs.
  pose proof (run_escape_attached es _ (step_escape_attached p Click_showModal Hesc))
    as Hesc'.
  set (q := run es (step p Click_showModal)) in *.
  change (run [close] q) with (step q close).
  rewrite !elem_of_cons in Hclose.
  destruct Hclose as [->|[->|[->|Hnil]]]; [..|by apply elem_of_nil in Hnil].
  - by apply saved_closeModal.
  - by apply saved_closeModal.
  - unfold step, exec; cbn [handler]. simpl. apply dispatch_Escape; [done|by left].
Qed.

Lemma closing_restores_overflow_witness :
  EscapeHandler ∈ keydownListeners (after 2 "scroll" [])
  ∧ (Click_showModal ∉ [Click_rightBtn; Keydown "ArrowLeft"; Click_overlay])
  ∧ Keydown "Escape" ∈ [Click_btnClose; Click_overlay; Keydown "Escape"]
  ∧ bodyOverflow
      (run (Click_showModal
              :: ([Click_rightBtn; Keydown "ArrowLeft"; Click_overlay] ++ [Keydown "Escape"]))
           (after 2 "scroll" []))
    = bodyOverflow (after 2 "scroll" []).
Proof.
  assert (EscapeHandler ∈ keydownListeners (after 2 "scroll" [])) as H1
    by (vm_compute; apply list_elem_of_here).
  assert (Click_showModal ∉ [Click_rightBtn; Keydown "ArrowLeft"; Click_overlay]) as H2
    by (apply (bool_decide_unpack _); vm_compute; exact I).
  assert (Keydown "Escape" ∈ [Click_btnClose; Click_overlay; Keydown "Escape"]) as H3
    by (apply (bool_decide_unpack _); vm_compute; exact I).
  split; [exact H1|]. split; [exact H2|]. split; [exact H3|].
  exact (closing_restores_overflow (after 2 "scroll" [])
           [Click_rightBtn; Keydown "ArrowLeft"; Click_overlay] (Keydown "Escape")
           H1 H2 H3).
Defined.

(** One cycle on a body that scrolls: locked while the modal is open,
    back to its own value after each way of closing. *)
Example modal_scenario :
  bodyOverflow <$>
    [ after 1 "scroll" [Click_showModal];
      after 1 "scroll" [Click_showModal; Click_btnClose];
      after 1 "scroll" [Click_showModal; Click_overlay];
      after 1 "scroll" [Click_showModal; Keydown "Escape"] ]
  = ["hidden"; "scroll"; "scroll"; "scroll"].
Proof. vm_compute. reflexivity. Qed.

(** C8.  The code at the failing input.  The body scrolls ("scroll")
    when the page is loaded.  A click on an open button shows the modal
    and locks the body.  A second click on an open button while the
    modal is shown (the focused button takes the Enter key) runs
    [openModal] again, which saves "hidden" over the value saved first.
    Each way of closing then hides the modal and writes "hidden" back:
    the body stays locked, where it scrolled before the modal was
    opened. *)
Theorem reopened_modal_keeps_body_locked :
  bodyOverflow (after 1 "scroll" []) = "scroll"
  ∧ bodyOverflow (after 1 "scroll" [Click_showModal]) = "hidden"
  ∧ previousOverflow (after 1 "scroll" [Click_showModal]) = Some "scroll"
  ∧ previousOverflow (after 1 "scroll" [Click_showModal; Click_showModal]) = Some "hidden"
  ∧ modalHidden (after 1 "scroll" [Click_showModal; Click_showModal]) = false
  ∧ modalHidden (after 1 "scroll" [Click_showModal; Click_showModal; Click_btnClose]) = true
  ∧ bodyOverflow (after 1 "scroll" [Click_showModal; Click_showModal; Click_btnClose])
    = "hidden"
  ∧ modalHidden (after 1 "scroll" [Click_showModal; Click_showModal; Click_overlay]) = true
  ∧ bodyOverflow (after 1 "scroll" [Click_showModal; Click_showModal; Click_overlay])
    = "hidden"
  ∧ modalHidden (after 1 "scroll" [Click_showModal; Click_showModal; Keydown "Escape"])
    = true
  ∧ bodyOverflow (after 1 "scroll" [Click_showModal; Click_showModal; Keydown "Escape"])
    = "hidden".
Proof. repeat split; vm_compute; reflexivity. Qed.

(** A second click on an open button while the modal is open saves
    "hidden" over the value saved first; closing then restores
    "hidden". *)
Example modal_opened_twice :
  bodyOverflow (after 1 "scroll" [Click_showModal; Click_showModal; Click_btnClose])
  = "hidden".
Proof. vm_compute. reflexivity. Qed.

(** * Dots are always found *)

(** C10.  With [N >= 1] slides the script runs to its end, so the
    initial [activateDot(0)] finds its dot; and on every page reached
    afterwards [nextSlide], [previousSlide] and the click listener of
    the dot strip return, so none of their calls of [activateDot] meets
    [null].  On every such page [currentSlide], the argument those
    calls pass, is an index [i < N]; the dot [createDots] made at
    position [i] is tagged with it, and it is the dot the selector
    finds. *)
Theorem activateDot_finds_its_dot
    (N : nat) (overflow : string) (es : list Event) (target : DotsTarget) :
  (1 ≤ N)%nat →
  returns script (initial N overflow)
  ∧ returns nextSlide (after N overflow es)
  ∧ returns previousSlide (after N overflow es)
  ∧ returns (dotContainer_click target) (after N overflow es)
  ∧ ∃ (i : nat) (dot : Dot),
      (i < N)%nat
      ∧ currentSlide (after N overflow es) = Num (Z.of_nat i)
      ∧ allDots (after N overflow es) !! i = Some dot
      ∧ data_slide dot = toString (currentSlide (after N overflow es))
      ∧ querySelector_dot (currentSlide (after N overflow es))
          (classList_remove_active <$> allDots (after N overflow es))
        = Some i.
Proof.
  intros HN.
  pose proof (Loaded_after N overflow es HN) as HL.
  pose proof (Loaded_carousel_of N _ HL) as Hc.
  destruct HL as [(k & Hk & Hs) _ _]. pose proof Hs as (Hcur & _ & Hd).
  unfold returns. split_and!.
  - rewrite script_spec by done. by eexists.
  - rewrite (nextSlide_spec N k) by done. by eexists.
  - rewrite (previousSlide_spec N k) by done. by eexists.
  - destruct target as [j|]; [|by eexists].
    destruct (decide (j < N)%nat).
    + rewrite (dotContainer_click_spec N) by done. by eexists.
    + rewrite (dotContainer_click_outside N); [by eexists|done|simpl; lia].
  - exists k, (mkDot (digits k) true). split_and!; [done..| | |].
    + rewrite Hd, dots_at_lookup by done. by rewrite bool_decide_eq_true_2.
    + rewrite Hcur, toString_nat. done.
    + rewrite Hcur. by apply (querySelector_dot_spec N).
Qed.

Lemma activateDot_finds_its_dot_witness :
  (1 ≤ 2)%nat
  ∧ returns script (initial 2 "")
  ∧ returns nextSlide (after 2 "" [Click_leftBtn])
  ∧ returns previousSlide (after 2 "" [Click_leftBtn])
  ∧ returns (dotContainer_click (OnDot 1)) (after 2 "" [Click_leftBtn])
  ∧ ∃ (i : nat) (dot : Dot),
      (i < 2)%nat
      ∧ currentSlide (after 2 "" [Click_leftBtn]) = Num (Z.of_nat i)
      ∧ allDots (after 2 "" [Click_leftBtn]) !! i = Some dot
      ∧ data_slide dot = toString (currentSlide (after 2 "" [Click_leftBtn]))
      ∧ querySelector_dot (currentSlide (after 2 "" [Click_leftBtn]))
          (classList_remove_active <$> allDots (after 2 "" [Click_leftBtn]))
        = Some i.
Proof.
  split; [lia|].
  apply (activateDot_finds_its_dot 2 "" [Click_leftBtn] (OnDot 1)). lia.
Defined.

(** Without slides the initial [activateDot(0)] has no dot to find: the
    script stops there and never registers the Escape listener. *)
Example no_slides :
  fst (script (initial 0 "")) = Throw TypeError
  ∧ keydownListeners (load 0 "") = [].
Proof. split; vm_compute; reflexivity. Qed.

(** ** Class lists and selectors *)

Lemma contains_add (c c' : string) (el : Element) :
  contains c (classList_add c' el) = contains c el || bool_decide (c = c').
Proof.
  unfold classList_add. destruct (contains c' el) eqn:E.
  - destruct (decide (c = c')) as [->|Hne].
    + by rewrite E.
    + by rewrite (bool_decide_eq_false_2 (c = c')), orb_false_r.
  - unfold contains; simpl. rewrite <- bool_decide_or.
    apply bool_decide_ext. by rewrite elem_of_app, list_elem_of_singleton.
Qed.

Lemma contains_remove (c c' : string) (el : Element) :
  contains c (classList_remove c' el) = contains c el && negb (bool_decide (c = c')).
Proof.
  unfold classList_remove, contains; simpl.
  rewrite <- bool_decide_not, <- bool_decide_and.
  apply bool_decide_ext. rewrite list_elem_of_filter. tauto.
Qed.

Lemma has_class_lt (c : string) (els : list Element) (n : nat) :
  has_class c els n = true → (n < length els)%nat.
Proof.
  unfold has_class. destruct (els !! n) eqn:E; [|done].
  intros _. by eapply lookup_lt_Some.
Qed.

Lemma has_class_alter (f : Element → Element) (c : string)
    (els : list Element) (n m : nat) :
  has_class c (alter f n els) m
  = if decide (n = m) then from_option (contains c ∘ f) false (els !! m)
    else has_class c els m.
Proof.
  unfold has_class. rewrite list_lookup_alter.
  destruct (decide (n = m)) as [->|]; [|done]. by destruct (els !! m).
Qed.

Lemma has_class_add (c c' : string) (els : list Element) (n m : nat) :
  has_class c (alter (classList_add c') n els) m
  = has_class c els m
    || bool_decide (c = c') && bool_decide (m = n) && bool_decide (m < length els)%nat.
Proof.
  rewrite has_class_alter. unfold has_class.
  destruct (decide (n = m)) as [->|Hne].
  - rewrite (bool_decide_eq_true_2 (m = m)) by done. rewrite andb_true_r.
    destruct (els !! m) as [el|] eqn:E; simpl.
    + rewrite contains_add. apply lookup_lt_Some in E.
      by rewrite (bool_decide_eq_true_2 (m < _)%nat), andb_true_r.
    + apply lookup_ge_None in E.
      rewrite (bool_decide_eq_false_2 (m < _)%nat) by lia. by rewrite andb_false_r.
  - rewrite (bool_decide_eq_false_2 (m = n)) by done.
    by rewrite andb_false_r, orb_false_r.
Qed.

Lemma has_class_remove_each (c c' : string) (nodes : list nat)
    (els : list Element) (m : nat) :
  has_class c (foldl (λ els n, alter (classList_remove c') n els) els nodes) m
  = has_class c els m && negb (bool_decide (c = c') && bool_decide (m ∈ nodes)).
Proof.
  revert els. induction nodes as [|n nodes IH]; intros els; cbn [foldl].
  - rewrite (bool_decide_eq_false_2 (m ∈ [])) by apply not_elem_of_nil.
    by rewrite andb_false_r, andb_true_r.
  - rewrite IH, has_class_alter. unfold has_class.
    destruct (decide (n = m)) as [->|Hne].
    + rewrite (bool_decide_eq_true_2 (m ∈ m :: nodes)) by by left.
      destruct (els !! m) as [el|]; simpl; [|done].
      rewrite contains_remove.
      destruct (contains c el), (bool_decide (c = c')), (bool_decide (m ∈ nodes)); done.
    + rewrite (bool_decide_ext (m ∈ n :: nodes) (m ∈ nodes)); [done|].
      rewrite elem_of_cons. split; [by intros [?|?]|by right].
Qed.

Lemma length_remove_each (c : string) (nodes : list nat) (els : list Element) :
  length (foldl (λ els n, alter (classList_remove c) n els) els nodes) = length els.
Proof.
  revert els. induction nodes as [|n nodes IH]; intros els; simpl; [done|].
  by rewrite IH, length_alter.
Qed.

Lemma data_tab_alter_add (c : string) (els : list Element) (n m : nat) :
  alter (classList_add c) n els !! m ≫= data_tab = els !! m ≫= data_tab.
Proof.
  rewrite list_lookup_alter. destruct (decide (n = m)) as [->|]; [|done].
  destruct (els !! m) as [el|]; [|done]. simpl.
  unfold classList_add. by destruct (contains c el).
Qed.

Lemma data_tab_remove_each (c : string) (nodes : list nat)
    (els : list Element) (m : nat) :
  foldl (λ els n, alter (classList_remove c) n els) els nodes !! m ≫= data_tab
  = els !! m ≫= data_tab.
Proof.
  revert els. induction nodes as [|n nodes IH]; intros els; simpl; [done|].
  rewrite IH, list_lookup_alter. destruct (decide (n = m)) as [->|]; [|done].
  by destruct (els !! m).
Qed.

Lemma querySelector_Some (c : string) (els : list Element) (n : nat) :
  querySelector c els = Some n
  ↔ has_class c els n = true ∧ ∀ j, (j < n)%nat → has_class c els j = false.
Proof.
  unfold querySelector, has_class. split.
  - destruct (list_find _ els) as [[i el]|] eqn:E; [|done].
    intros [= <-]. apply list_find_Some in E as (Hi & Hc & Hmin).
    rewrite Hi. split; [done|]. intros j Hj.
    destruct (els !! j) as [el'|] eqn:E'; [|done]. simpl.
    apply not_true_is_false. by eapply Hmin.
  - intros [Hn Hmin]. destruct (els !! n) as [el|] eqn:E; [|done].
    assert (list_find (λ el, contains c el = true) els = Some (n, el)) as ->; [|done].
    apply list_find_Some. split_and!; [done..|].
    intros j el' Hj Hlt Hc. specialize (Hmin j Hlt).
    rewrite Hj in Hmin. simpl in Hmin. congruence.
Qed.

Lemma querySelector_ext (c : string) (els els' : list Element) (n : nat) :
  (∀ j, has_class c els' j = has_class c els j) →
  querySelector c els = Some n → querySelector c els' = Some n.
Proof.
  intros Hext. rewrite !querySelector_Some. intros [Hn Hmin].
  split; [by rewrite Hext|]. intros j Hj. rewrite Hext. by apply Hmin.
Qed.

Lemma closest_has_class (c : string) (els : list Element) (path : list nat) (n : nat) :
  closest c els path = Some n → has_class c els n = true.
Proof.
  unfold closest. destruct (list_find _ path) as [[i m]|] eqn:E; [|done].
  intros [= <-]. by apply list_find_Some in E as (_ & ? & _).
Qed.

Lemma elem_of_querySelectorAll (c : string) (els : list Element) (n : nat) :
  n ∈ querySelectorAll c els ↔ has_class c els n = true.
Proof.
  unfold querySelectorAll. rewrite list_elem_of_filter, elem_of_seq.
  split; [tauto|]. intros H. split; [done|]. apply has_class_lt in H. lia.
Qed.

Lemma NoDup_querySelectorAll (c : string) (els : list Element) :
  NoDup (querySelectorAll c els).
Proof. apply NoDup_filter, NoDup_seq. Qed.

Lemma filter_only (P : nat → Prop) `{!∀ n, Decision (P n)} (l : list nat) (t : nat) :
  NoDup l → (∀ n, n ∈ l → P n ↔ n = t) →
  filter P l = if bool_decide (t ∈ l) then [t] else [].
Proof.
  induction 1 as [|x l Hx Hl IH]; intros HP; [done|].
  rewrite filter_cons, IH by (intros n Hn; apply HP; by right).
  destruct (decide (P x)) as [Hpx|Hpx].
  - apply HP in Hpx as ->; [|by left].
    rewrite (bool_decide_eq_false_2 (t ∈ l)) by done.
    rewrite bool_decide_eq_true_2; [done|by left].
  - rewrite (bool_decide_ext (t ∈ x :: l) (t ∈ l)); [done|].
    rewrite elem_of_cons. split; [|by right].
    intros [->|?]; [|done]. destruct Hpx. apply HP; [by left|done].
Qed.

(** ** Switching tabs *)

(** The four class updates of the listener, for any two distinct
    marker classes [tA] (active tab) and [cA] (active panel). *)
Lemma has_class_switched (tA cA : string) (els : list Element)
    (tabs contents : list nat) (clicked panel m : nat) :
  tA ≠ cA → (clicked < length els)%nat → (panel < length els)%nat →
  let els1 := foldl (λ els n, alter (classList_remove tA) n els) els tabs in
  let els2 := alter (classList_add tA) clicked els1 in
  let els3 := foldl (λ els n, alter (classList_remove cA) n els) els2 contents in
  let els4 := alter (classList_add cA) panel els3 in
  has_class tA els4 m
  = has_class tA els m && negb (bool_decide (m ∈ tabs)) || bool_decide (m = clicked)
  ∧ has_class cA els4 m
    = has_class cA els m && negb (bool_decide (m ∈ contents)) || bool_decide (m = panel)
  ∧ ∀ cls, cls ≠ tA → cls ≠ cA → has_class cls els3 m = has_class cls els m.
Proof.
  intros Hne Hclicked Hpanel els1 els2 els3 els4.
  assert (cA ≠ tA) as Hne' by done.
  unfold els4, els3, els2, els1. split_and!.
  - rewrite has_class_add, has_class_remove_each, has_class_add, has_class_remove_each.
    repeat (rewrite length_remove_each || rewrite length_alter).
    rewrite !(bool_decide_eq_false_2 (tA = cA)) by done.
    rewrite !(bool_decide_eq_true_2 (tA = tA)) by done.
    destruct (decide (m = clicked)) as [->|Hm].
    + rewrite (bool_decide_eq_true_2 (clicked < _)%nat) by done.
      rewrite (bool_decide_eq_true_2 (clicked = clicked)) by done.
      simpl. by rewrite !orb_true_r.
    + rewrite (bool_decide_eq_false_2 (m = clicked)) by done.
      simpl. by rewrite !andb_true_r, !orb_false_r.
  - rewrite has_class_add, has_class_remove_each, has_class_add, has_class_remove_each.
    repeat (rewrite length_remove_each || rewrite length_alter).
    rewrite !(bool_decide_eq_false_2 (cA = tA)) by done.
    rewrite !(bool_decide_eq_true_2 (cA = cA)) by done.
    destruct (decide (m = panel)) as [->|Hm].
    + rewrite (bool_decide_eq_true_2 (panel < _)%nat) by done.
      rewrite (bool_decide_eq_true_2 (panel = panel)) by done.
      simpl. by rewrite !orb_true_r.
    + rewrite (bool_decide_eq_false_2 (m = panel)) by done.
      simpl. by rewrite !andb_true_r, !orb_false_r.
  - intros cls H1 H2.
    rewrite has_class_remove_each, has_class_add, has_class_remove_each.
    rewrite (bool_decide_eq_false_2 (cls = tA)), (bool_decide_eq_false_2 (cls = cA)) by done.
    simpl. by rewrite !andb_true_r, orb_false_r.
Qed.

Lemma dataset_tab_switched (tA cA : string) (els : list Element)
    (tabs contents : list nat) (clicked n : nat) :
  dataset_tab
    (foldl (λ els n, alter (classList_remove cA) n els)
       (alter (classList_add tA) clicked
          (foldl (λ els n, alter (classList_remove tA) n els) els tabs))
       contents) n
  = dataset_tab els n.
Proof.
  unfold dataset_tab.
  by rewrite data_tab_remove_each, data_tab_alter_add, data_tab_remove_each.
Qed.

(** The element [clicked] is in the document, and the selector built
    from its [data-tab] finds the element [panel]. *)
Lemma activate_tab_spec (s : Tabs) (clicked panel : nat) :
  (clicked < length (elements s))%nat →
  dataset_tab (elements s) clicked ≠ "active" →
  querySelector ("operations__content--" +:+ dataset_tab (elements s) clicked)
                (elements s) = Some panel →
  ∃ els,
    activate_tab clicked s = (Normal tt, set_elements els s)
    ∧ (∀ m, has_class "operations__tab--active" els m
            = has_class "operations__tab--active" (elements s) m
              && negb (bool_decide (m ∈ operationsTabs s))
              || bool_decide (m = clicked))
    ∧ (∀ m, has_class "operations__content--active" els m
            = has_class "operations__content--active" (elements s) m
              && negb (bool_decide (m ∈ operationsContents s))
              || bool_decide (m = panel)).
Proof.
  intros Hclicked Htab Hpanel.
  assert (panel < length (elements s))%nat as Hpanel_lt.
  { apply querySelector_Some in Hpanel as [H _]. by apply has_class_lt in H. }
  assert ("operations__tab--active" ≠ "operations__content--active") as Hne by done.
  pose proof (λ m, has_class_switched _ _ (elements s) (operationsTabs s)
                     (operationsContents s) clicked panel m Hne Hclicked Hpanel_lt)
    as Hsw. cbv zeta in Hsw.
  set (cls := "operations__content--" +:+ dataset_tab (elements s) clicked) in *.
  assert (cls ≠ "operations__tab--active") as Hcls1 by (unfold cls; simpl; discriminate).
  assert (cls ≠ "operations__content--active") as Hcls2.
  { unfold cls; simpl. intros [= E]. done. }
  unfold activate_tab, forEach_remove. unfold_M.
  cbn [elements operationsTabs operationsContents set_elements].
  rewrite dataset_tab_switched. fold cls.
  rewrite (querySelector_ext cls (elements s) _ panel); [|by intros j; apply Hsw|done].
  eexists. split; [done|]. split; intros m; apply Hsw.
Qed.

(** [switchTab] on a click inside a tab, in a document where the tab
    names a panel: the tab and its panel end up the only active ones. *)
Lemma switchTab_on_tab (els : list Element) (path : list nat) (tab panel : nat) :
  closest "operations__tab" els path = Some tab →
  dataset_tab els tab ≠ "active" →
  querySelector ("operations__content--" +:+ dataset_tab els tab) els = Some panel →
  has_class "operations__content" els panel = true →
  returns (switchTab path) (load_tabs els)
  ∧ active_tabs (exec (switchTab path) (load_tabs els)) = [tab]
  ∧ active_contents (exec (switchTab path) (load_tabs els)) = [panel].
Proof.
  intros Hclosest Htab Hpanel Hcontent.
  pose proof (closest_has_class _ _ _ _ Hclosest) as Hclass.
  destruct (activate_tab_spec (load_tabs els) tab panel)
    as (els' & Hrun & Htabs & Hcontents); [by eapply has_class_lt|done..|].
  unfold returns, exec, switchTab, mbind, M_bind, gets.
  change (elements (load_tabs els)) with els. rewrite Hclosest, Hrun.
  split; [by eexists|]. unfold active_tabs, active_contents; simpl. split.
  - rewrite (filter_only _ _ tab); [|apply NoDup_querySelectorAll|].
    + rewrite bool_decide_eq_true_2; [done|by apply elem_of_querySelectorAll].
    + intros n Hn. rewrite Htabs. simpl.
      rewrite (bool_decide_eq_true_2 (n ∈ _)) by done.
      rewrite andb_false_r. simpl. by rewrite bool_decide_eq_true.
  - rewrite (filter_only _ _ panel); [|apply NoDup_querySelectorAll|].
    + rewrite bool_decide_eq_true_2; [done|by apply elem_of_querySelectorAll].
    + intros n Hn. rewrite Hcontents. simpl.
      rewrite (bool_decide_eq_true_2 (n ∈ _)) by done.
      rewrite andb_false_r. simpl. by rewrite bool_decide_eq_true.
Qed.

(** [switchTab] on a click outside every tab: nothing changes. *)
Lemma switchTab_outside (s : Tabs) (path : list nat) :
  closest "operations__tab" (elements s) path = None →
  switchTab path s = (Normal tt, s).
Proof. intros H. unfold switchTab, mbind, M_bind, gets. by rewrite H. Qed.

(** The listener of [script.js] does what [switchTab] does on every
    click for which the nearest [.btn] is the nearest tab and is not
    the container. *)
Lemma listeners_agree (s : Tabs) (path : list nat) (currentTarget : nat) :
  closest "btn" (elements s) path = closest "operations__tab" (elements s) path →
  closest "btn" (elements s) path ≠ Some currentTarget →
  operationsTabContainer_click path currentTarget s = switchTab path s.
Proof.
  intros Heq Hne. unfold operationsTabContainer_click, switchTab, mbind, M_bind, gets.
  rewrite <- Heq. destruct (closest "btn" (elements s) path) as [n|]; [|done].
  rewrite bool_decide_eq_true_2; [done|congruence].
Qed.

(** * The tabbed component *)

(** C9.  The two revisions of the listener, run on the same clicks.  In
    [sample_tabs] element 3 is a [.btn] inside the container that is no
    tab.  A click on it leaves [switchTab] idle, as a click outside
    every tab should; the listener of [script.js] takes the button for
    a tab: it deactivates every tab and every panel, marks the button,
    and raises on the panel lookup for [data-tab] [undefined].  In
    [sample_tabs_plain] the tabs lack the class [btn]: a click on tab 2
    switches to it under [switchTab] and is ignored by the listener of
    [script.js]. *)
Theorem btn_delegation_diverges :
  active_tabs (load_tabs sample_tabs) = [1%nat]
  ∧ active_contents (load_tabs sample_tabs) = [4%nat]
  ∧ switchTab [3%nat; 0%nat] (load_tabs sample_tabs) = (Normal tt, load_tabs sample_tabs)
  ∧ fst (operationsTabContainer_click [3%nat; 0%nat] 0 (load_tabs sample_tabs))
    = Throw TypeError
  ∧ active_tabs (exec (operationsTabContainer_click [3%nat; 0%nat] 0) (load_tabs sample_tabs))
    = []
  ∧ active_contents
      (exec (operationsTabContainer_click [3%nat; 0%nat] 0) (load_tabs sample_tabs))
    = []
  ∧ has_class "operations__tab--active"
      (elements (exec (operationsTabContainer_click [3%nat; 0%nat] 0) (load_tabs sample_tabs)))
      3
    = true
  ∧ active_tabs (exec (switchTab [2%nat; 0%nat]) (load_tabs sample_tabs_plain)) = [2%nat]
  ∧ active_contents (exec (switchTab [2%nat; 0%nat]) (load_tabs sample_tabs_plain)) = [4%nat]
  ∧ operationsTabContainer_click [2%nat; 0%nat] 0 (load_tabs sample_tabs_plain)
    = (Normal tt, load_tabs sample_tabs_plain).
Proof. repeat split; vm_compute; reflexivity. Qed.

(** On the tabs of [sample_tabs] themselves the two revisions agree. *)
Example listeners_agree_on_tab :
  operationsTabContainer_click [2%nat; 0%nat] 0 (load_tabs sample_tabs)
  = switchTab [2%nat; 0%nat] (load_tabs sample_tabs)
  ∧ active_tabs (exec (switchTab [2%nat; 0%nat]) (load_tabs sample_tabs)) = [2%nat]
  ∧ active_contents (exec (switchTab [2%nat; 0%nat]) (load_tabs sample_tabs)) = [5%nat].
Proof. repeat split; vm_compute; reflexivity. Qed.

(** * More about the carousel *)

Lemma goto_goto (N j k : nat) (p : Page) : goto N j (goto N k p) = goto N j p.
Proof. done. Qed.

Lemma step_right (N k : nat) (p : Page) :
  carousel_of N p → currentSlide p = Num (Z.of_nat k) → (k < N)%nat →
  step p Click_rightBtn = goto N (succ_index N k) p.
Proof.
  intros Hc Hcur Hk. unfold step, exec; cbn [handler].
  by rewrite (nextSlide_spec N k).
Qed.

Lemma step_left (N k : nat) (p : Page) :
  carousel_of N p → currentSlide p = Num (Z.of_nat k) → (k < N)%nat →
  step p Click_leftBtn = goto N (pred_index N k) p.
Proof.
  intros Hc Hcur Hk. unfold step, exec; cbn [handler].
  by rewrite (previousSlide_spec N k).
Qed.

Lemma step_dot (N k : nat) (p : Page) :
  carousel_of N p → (k < N)%nat →
  step p (Click_dotContainer (OnDot k)) = goto N k p.
Proof.
  intros Hc Hk. unfold step, exec; cbn [handler].
  by rewrite (dotContainer_click_spec N).
Qed.

Lemma run_replicate_goto (N : nat) (e : Event) (f : nat → nat) (j k : nat) (p : Page) :
  (∀ k q, carousel_of N q → currentSlide q = Num (Z.of_nat k) → (k < N)%nat →
          step q e = goto N (f k) q) →
  (∀ k, (k < N)%nat → (f k < N)%nat) →
  showing N k p → (k < N)%nat →
  run (replicate j e) p = goto N (Nat.iter j f k) p.
Proof.
  intros Hstep Hf. revert k p. induction j as [|j IH]; intros k p Hs Hk.
  - simpl. by rewrite showing_goto.
  - cbn [replicate]. unfold run in *. cbn [foldl].
    rewrite (Hstep k); [|by eapply showing_carousel_of|apply Hs|done].
    rewrite (IH (f k)); [|apply goto_showing|by apply Hf].
    by rewrite goto_goto, Nat.iter_succ_r.
Qed.

Lemma succ_index_nat_mod (N k : nat) :
  (k < N)%nat → succ_index N k = ((k + 1) mod N)%nat.
Proof.
  intros Hk. unfold succ_index. case_bool_decide as E.
  - replace (k + 1)%nat with N by lia. by rewrite Nat.Div0.mod_same.
  - rewrite Nat.mod_small by lia. lia.
Qed.

Lemma iter_succ_index (N j k : nat) :
  (k < N)%nat → Nat.iter j (succ_index N) k = ((k + j) mod N)%nat.
Proof.
  intros Hk. induction j as [|j IH]; simpl.
  - rewrite Nat.add_0_r. by rewrite Nat.mod_small.
  - rewrite IH. rewrite succ_index_nat_mod by (apply Nat.mod_upper_bound; lia).
    rewrite Nat.Div0.add_mod_idemp_l. f_equal. lia.
Qed.

Lemma pred_succ_index (N k : nat) :
  (k < N)%nat → pred_index N (succ_index N k) = k.
Proof. intros Hk. unfold pred_index, succ_index. repeat case_bool_decide; lia. Qed.

Lemma succ_pred_index (N k : nat) :
  (k < N)%nat → succ_index N (pred_index N k) = k.
Proof. intros Hk. unfold pred_index, succ_index. repeat case_bool_decide; lia. Qed.

Lemma iter_pred_succ_index (N j k : nat) :
  (k < N)%nat →
  Nat.iter j (pred_index N) (Nat.iter j (succ_index N) k) = k.
Proof.
  intros Hk. induction j as [|j IH]; [done|].
  rewrite Nat.iter_succ_r.
  change (Nat.iter (S j) (succ_index N) k)
    with (succ_index N (Nat.iter j (succ_index N) k)).
  rewrite pred_succ_index; [done|].
  rewrite iter_succ_index by done. apply Nat.mod_upper_bound. lia.
Qed.

Lemma iter_N_succ_index (N k : nat) :
  (k < N)%nat → Nat.iter N (succ_index N) k = k.
Proof.
  intros Hk. rewrite iter_succ_index by done.
  replace (k + N)%nat with (k + 1 * N)%nat by lia.
  rewrite Nat.Div0.mod_add. by apply Nat.mod_small.
Qed.

Lemma iter_N_pred_index (N k : nat) :
  (k < N)%nat → Nat.iter N (pred_index N) k = k.
Proof.
  intros Hk. rewrite <- (iter_N_succ_index N k) at 1 by done.
  by apply iter_pred_succ_index.
Qed.

(** X1.  With [N >= 1] slides, [N] clicks on the right button bring a
    loaded page back to itself, and so do [N] clicks on the left
    button: the whole page, not the index alone. *)
Theorem slides_cycle (N : nat) (overflow : string) (es : list Event) :
  (1 ≤ N)%nat →
  run (replicate N Click_rightBtn) (after N overflow es) = after N overflow es
  ∧ run (replicate N Click_leftBtn) (after N overflow es) = after N overflow es.
Proof.
  intros HN.
  destruct (Loaded_after N overflow es HN) as [(k & Hk & Hs) _ _].
  split.
  - rewrite (run_replicate_goto N _ (succ_index N) N k);
      [|apply step_right|apply succ_index_lt|done..].
    rewrite iter_N_succ_index by done. by apply showing_goto.
  - rewrite (run_replicate_goto N _ (pred_index N) N k);
      [|apply step_left|apply pred_index_lt|done..].
    rewrite iter_N_pred_index by done. by apply showing_goto.
Qed.

Lemma slides_cycle_witness :
  (1 ≤ 3)%nat
  ∧ run (replicate 3 Click_rightBtn) (after 3 "" [Click_leftBtn]) = after 3 "" [Click_leftBtn]
  ∧ run (replicate 3 Click_leftBtn) (after 3 "" [Click_leftBtn]) = after 3 "" [Click_leftBtn].
Proof.
  split; [lia|]. apply (slides_cycle 3 "" [Click_leftBtn]). lia.
Defined.

(** X2.  On a loaded page the two buttons undo each other in both
    orders, on the whole page: index, transforms and dots. *)
Theorem buttons_undo_each_other (N : nat) (overflow : string) (es : list Event) :
  (1 ≤ N)%nat →
  run [Click_rightBtn; Click_leftBtn] (after N overflow es) = after N overflow es
  ∧ run [Click_leftBtn; Click_rightBtn] (after N overflow es) = after N overflow es.
Proof.
  intros HN.
  destruct (Loaded_after N overflow es HN) as [(k & Hk & Hs) _ _].
  pose proof (showing_carousel_of N k _ Hs) as Hc. pose proof Hs as (Hcur & _).
  unfold run; cbn [foldl]. split.
  - rewrite (step_right N k) by done.
    rewrite (step_left N (succ_index N k));
      [|apply goto_carousel_of|done|by apply succ_index_lt].
    rewrite goto_goto, pred_succ_index by done. by apply showing_goto.
  - rewrite (step_left N k) by done.
    rewrite (step_right N (pred_index N k));
      [|apply goto_carousel_of|done|by apply pred_index_lt].
    rewrite goto_goto, succ_pred_index by done. by apply showing_goto.
Qed.

Lemma buttons_undo_each_other_witness :
  (1 ≤ 3)%nat
  ∧ run [Click_rightBtn; Click_leftBtn] (after 3 "" [Click_rightBtn; Click_rightBtn])
    = after 3 "" [Click_rightBtn; Click_rightBtn]
  ∧ run [Click_leftBtn; Click_rightBtn] (after 3 "" [Click_rightBtn; Click_rightBtn])
    = after 3 "" [Click_rightBtn; Click_rightBtn].
Proof.
  split; [lia|]. apply (buttons_undo_each_other 3 "" [Click_rightBtn; Click_rightBtn]). lia.
Defined.

(** On three slides, from the last one: the right button wraps to slide
    0 and the left button brings the last slide back; the left button
    goes to slide 1 and the right button brings the last slide back. *)
Example buttons_undo_each_other_scenario :
  currentSlide <$>
    [ after 3 "" [Click_rightBtn; Click_rightBtn];
      after 3 "" [Click_rightBtn; Click_rightBtn; Click_rightBtn];
      after 3 "" [Click_rightBtn; Click_rightBtn; Click_rightBtn; Click_leftBtn];
      after 3 "" [Click_rightBtn; Click_rightBtn; Click_leftBtn];
      after 3 "" [Click_rightBtn; Click_rightBtn; Click_leftBtn; Click_rightBtn] ]
  = [Num 2; Num 0; Num 2; Num 1; Num 2].
Proof. vm_compute. reflexivity. Qed.

(** X3.  From a loaded page showing slide [k], [j] clicks on the right
    button give the very page a click on dot [(k + j) mod N] gives: the
    two routes to a slide agree. *)
Theorem right_clicks_reach_dot
    (N : nat) (overflow : string) (es : list Event) (j k : nat) :
  (1 ≤ N)%nat →
  currentSlide (after N overflow es) = Num (Z.of_nat k) →
  run (replicate j Click_rightBtn) (after N overflow es)
  = step (after N overflow es) (Click_dotContainer (OnDot ((k + j) mod N))).
Proof.
  intros HN Hcur.
  destruct (Loaded_after N overflow es HN) as [(k' & Hk & Hs) _ _].
  assert (k' = k) as -> by (destruct Hs as [E _]; rewrite E in Hcur; simplify_eq; lia).
  rewrite (run_replicate_goto N _ (succ_index N) j k);
    [|apply step_right|apply succ_index_lt|done..].
  rewrite (step_dot N); [|by eapply showing_carousel_of|apply Nat.mod_upper_bound; lia].
  by rewrite iter_succ_index.
Qed.

Lemma right_clicks_reach_dot_witness :
  (1 ≤ 4)%nat
  ∧ currentSlide (after 4 "" [Click_leftBtn]) = Num (Z.of_nat 3)
  ∧ run (replicate 2 Click_rightBtn) (after 4 "" [Click_leftBtn])
    = step (after 4 "" [Click_leftBtn]) (Click_dotContainer (OnDot ((3 + 2) mod 4))).
Proof.
  assert (1 ≤ 4)%nat as H1 by lia.
  assert (currentSlide (after 4 "" [Click_leftBtn]) = Num (Z.of_nat 3)) as H2
    by (vm_compute; reflexivity).
  split; [exact H1|]. split; [exact H2|].
  exact (right_clicks_reach_dot 4 "" [Click_leftBtn] 2 3 H1 H2).
Defined.

Lemma remove_active_twice (dots : list Dot) :
  classList_remove_active <$> (classList_remove_active <$> dots)
  = classList_remove_active <$> dots.
Proof. rewrite <- list_fmap_compose. by apply list_fmap_ext. Qed.

Lemma remove_active_alter_add (i : nat) (dots : list Dot) :
  classList_remove_active <$> alter classList_add_active i (classList_remove_active <$> dots)
  = classList_remove_active <$> dots.
Proof.
  apply list_eq. intros j.
  rewrite !list_lookup_fmap, list_lookup_alter, !list_lookup_fmap.
  destruct (decide (i = j)) as [->|]; by destruct (dots !! j).
Qed.

Lemma activateDot_eq (curslide : number) (p : Page) :
  activateDot curslide p
  = match querySelector_dot curslide (classList_remove_active <$> allDots p) with
    | Some i =>
        (Normal tt,
         set_allDots (alter classList_add_active i (classList_remove_active <$> allDots p)) p)
    | None => (Throw TypeError, set_allDots (classList_remove_active <$> allDots p) p)
    end.
Proof.
  unfold activateDot. unfold_M.
  change (allDots (set_allDots ?d _)) with d.
  by destruct (querySelector_dot curslide _).
Qed.

(** X4.  [activateDot] is idempotent on every page and for every
    argument: a second call with the same argument ends the same way
    and leaves the same page, also when the lookup fails and the call
    raises. *)
Theorem activateDot_idempotent (curslide : number) (p : Page) :
  activateDot curslide (exec (activateDot curslide) p) = activateDot curslide p.
Proof.
  unfold exec. rewrite (activateDot_eq curslide p).
  destruct (querySelector_dot curslide (classList_remove_active <$> allDots p))
    as [i|] eqn:E; cbn [snd]; rewrite activateDot_eq;
    change (allDots (set_allDots ?d _)) with d.
  - by rewrite remove_active_alter_add, E.
  - by rewrite remove_active_twice, E.
Qed.

Lemma toString_zero (z : Z) : toString (Num z) = "0" → z = 0.
Proof.
  unfold toString. case_bool_decide as Hz.
  - simpl. discriminate.
  - intros H. change "0" with (digits 0) in H. apply digits_inj in H. lia.
Qed.

Lemma translateX_zero (s : string) :
  "translateX(" +:+ s +:+ "%)" = "translateX(0%)" → s = "0".
Proof.
  simpl. intros [= H].
  destruct s as [|a [|b [|c s]]]; simpl in H; try discriminate.
  - by injection H as ->.
  - injection H as -> H. destruct s; discriminate.
Qed.

(** X5.  On a loaded page exactly one slide is in view: the slide
    whose transform is [translateX(0%)] is the one at [currentSlide],
    and no other. *)
Theorem current_slide_in_view (N : nat) (overflow : string) (es : list Event) (i : nat) :
  (1 ≤ N)%nat →
  allSlides (after N overflow es) !! i = Some "translateX(0%)"
  ↔ currentSlide (after N overflow es) = Num (Z.of_nat i).
Proof.
  intros HN.
  destruct (Loaded_after N overflow es HN) as [(k & Hk & Hcur & Hslides & _) _ _].
  rewrite Hcur, Hslides. unfold slides_at. rewrite list_lookup_fmap. split.
  - destruct (seq 0 N !! i) as [j|] eqn:E; [|done].
    apply lookup_seq in E as [-> _]. intros H. apply (inj Some) in H.
    apply translateX_zero, toString_zero in H. f_equal. lia.
  - intros [= E]. apply Nat2Z.inj in E as <-.
    rewrite lookup_seq_lt by done. cbn [fmap option_fmap option_map Nat.add].
    by replace (100 * (Z.of_nat k - Z.of_nat k)) with 0 by lia.
Qed.

Lemma current_slide_in_view_witness :
  (1 ≤ 3)%nat
  ∧ (allSlides (after 3 "" [Click_rightBtn]) !! 1%nat = Some "translateX(0%)"
     ↔ currentSlide (after 3 "" [Click_rightBtn]) = Num (Z.of_nat 1)).
Proof.
  split; [lia|]. apply (current_slide_in_view 3 "" [Click_rightBtn] 1). lia.
Defined.

(** ** A document without slides *)

Lemma load_no_slides (overflow : string) :
  load 0 overflow = initial 0 overflow.
Proof. done. Qed.

Lemma nextSlide_no_slides (p : Page) (j : nat) :
  allSlides p = [] → allDots p = [] → currentSlide p = Num (Z.of_nat j) →
  nextSlide p = (Throw TypeError, set_currentSlide (Num (Z.of_nat (S j))) p).
Proof.
  intros Hs Hd Hcur. unfold nextSlide.
  unfold mbind at 1, M_bind at 1, modify at 1. rewrite Hcur, Hs.
  assert ((if strict_eq (Num (Z.of_nat j)) (sub (length_ (@nil string)) (Num 1))
           then Num 0 else add (Num (Z.of_nat j)) (Num 1))
          = Num (Z.of_nat (S j))) as ->.
  { unfold strict_eq, sub, add, arith, length_.
    rewrite bool_decide_eq_false_2 by (simpl; lia). f_equal. lia. }
  unfold mbind, M_bind, gets, slideMove, modify.
  change (currentSlide (set_currentSlide ?v _)) with v.
  rewrite activateDot_eq.
  change (allDots (set_allSlides _ (set_currentSlide _ ?q))) with (allDots q).
  change (allSlides (set_currentSlide _ ?q)) with (allSlides q).
  rewrite Hd, Hs. cbn [fmap list_fmap imap querySelector_dot list_find option_fmap option_map].
  destruct p; simpl in *; by subst.
Qed.

(** X6.  Without slides the script raises at its [activateDot(0)], and
    the buttons do not wrap: each click on the right button raises and
    moves [currentSlide] one further, to [j] after [j] clicks, and a
    click on the left button moves it to -1. *)
Theorem no_slides_no_wrap (overflow : string) (j : nat) :
  fst (script (initial 0 overflow)) = Throw TypeError
  ∧ currentSlide (run (replicate j Click_rightBtn) (load 0 overflow)) = Num (Z.of_nat j)
  ∧ fst (nextSlide (run (replicate j Click_rightBtn) (load 0 overflow))) = Throw TypeError
  ∧ currentSlide (step (load 0 overflow) Click_leftBtn) = Num (-1).
Proof.
  split; [done|].
  assert (∀ p i, allSlides p = [] → allDots p = [] → currentSlide p = Num (Z.of_nat i) →
            allSlides (run (replicate j Click_rightBtn) p) = []
            ∧ allDots (run (replicate j Click_rightBtn) p) = []
            ∧ currentSlide (run (replicate j Click_rightBtn) p) = Num (Z.of_nat (i + j)))
    as Hrun.
  { induction j as [|j IH]; intros p i Hs Hd Hcur.
    - simpl. by rewrite Nat.add_0_r.
    - cbn [replicate]. unfold run in *. cbn [foldl].
      unfold step at 2 4 6, exec; cbn [handler].
      rewrite (nextSlide_no_slides p i) by done. cbn [snd].
      destruct (IH (set_currentSlide (Num (Z.of_nat (S i))) p) (S i))
        as (H1 & H2 & H3); [done..|].
      rewrite H1, H2, H3. split_and!; [done..|]. do 2 f_equal. lia. }
  destruct (Hrun (load 0 overflow) 0%nat) as (H1 & H2 & H3); [done..|].
  split_and!.
  - by rewrite H3.
  - by rewrite (nextSlide_no_slides _ j).
  - done.
Qed.

(** * More about the keyboard gate and the observers *)

Lemma step_NoDup (p : Page) (e : Event) :
  NoDup (keydownListeners p) → NoDup (keydownListeners (step p e)).
Proof.
  intros Hnd. rewrite step_keydownListeners.
  destruct e as [| |?|?|[|[[]] ?]|?| | |]; try done.
  - by apply addEventListener_NoDup.
  - by apply removeEventListener_NoDup.
Qed.

Lemma load_NoDup (N : nat) (overflow : string) :
  NoDup (keydownListeners (load N overflow)).
Proof.
  destruct (load_keydownListeners N overflow) as [-> | ->];
    [constructor|apply NoDup_singleton].
Qed.

Lemma load_not_attached (N : nat) (overflow : string) :
  HandleKey ∉ keydownListeners (load N overflow).
Proof.
  destruct (load_keydownListeners N overflow) as [-> | ->].
  - apply not_elem_of_nil.
  - by intros ?%list_elem_of_singleton.
Qed.

Lemma run_gate (es : list Event) (p : Page) (acc : option bool) :
  NoDup (keydownListeners p) →
  (HandleKey ∈ keydownListeners p ↔ acc = Some true) →
  HandleKey ∈ keydownListeners (run es p)
  ↔ foldl (report_step slider_entries) acc es = Some true.
Proof.
  revert p acc. induction es as [|e es IH]; intros p acc Hnd Hacc; [done|].
  unfold run in *. cbn [foldl]. apply IH; [by apply step_NoDup|].
  rewrite step_keydownListeners. unfold report_step.
  destruct e as [| |?|?|[|[[]] ?]|?| | |]; try done; simpl.
  - rewrite addEventListener_elem_of. split; [done|by left].
  - rewrite removeEventListener_elem_of by done. split; [by intros [? _]|done].
Qed.

(** X7.  Whether [handleKey] is attached is decided by the last
    callback of the slider observer that carried an entry: it is
    attached exactly when that entry intersected, and not attached
    before any such callback.  No other event attaches or detaches
    it. *)
Theorem gate_follows_last_report (N : nat) (overflow : string) (es : list Event) :
  HandleKey ∈ keydownListeners (after N overflow es)
  ↔ last_report slider_entries es = Some true.
Proof.
  apply run_gate; [apply load_NoDup|].
  split; [by intros ?%load_not_attached|done].
Qed.

Lemma escapeHandler_other_key (key : string) (p : Page) :
  key ≠ "Escape" → exec (escapeHandler key) p = p.
Proof.
  intros Hk. unfold exec. rewrite escapeHandler_spec.
  by rewrite bool_decide_eq_false_2.
Qed.

Lemma dispatch_detached (key : string) (ls : list Listener) (p : Page) :
  key ≠ "Escape" → HandleKey ∉ ls →
  foldl (λ q l, exec (call_listener l key) q) p ls = p.
Proof.
  intros Hk. revert p. induction ls as [|l ls IH]; intros p Hls; [done|].
  apply not_elem_of_cons in Hls as [Hl Hls]. cbn [foldl].
  destruct l; [done|]. cbn [call_listener].
  rewrite escapeHandler_other_key by done. by apply IH.
Qed.

Lemma dispatch_attached (key : string) (ls : list Listener) (p : Page) :
  key ≠ "Escape" → NoDup ls → HandleKey ∈ ls →
  foldl (λ q l, exec (call_listener l key) q) p ls = exec (handleKey key) p.
Proof.
  intros Hk Hnd. revert p. induction Hnd as [|l ls Hl Hnd IH]; intros p Hin.
  - by apply elem_of_nil in Hin.
  - cbn [foldl]. destruct l; cbn [call_listener].
    + by apply dispatch_detached.
    + rewrite escapeHandler_other_key by done. apply IH.
      by apply elem_of_cons in Hin as [?|?].
Qed.

(** X8.  An arrow key does what the button does, or nothing: while the
    last report of the slider observer says the slider is visible,
    ArrowRight leaves the page a click on the right button leaves and
    ArrowLeft the page a click on the left button leaves; otherwise
    both keys leave the page untouched. *)
Theorem arrow_keys_are_buttons (N : nat) (overflow : string) (es : list Event) :
  step (after N overflow es) (Keydown "ArrowRight")
  = match last_report slider_entries es with
    | Some true => step (after N overflow es) Click_rightBtn
    | _ => after N overflow es
    end
  ∧ step (after N overflow es) (Keydown "ArrowLeft")
    = match last_report slider_entries es with
      | Some true => step (after N overflow es) Click_leftBtn
      | _ => after N overflow es
      end.
Proof.
  assert (HandleKey ∈ keydownListeners (after N overflow es)
          ↔ last_report slider_entries es = Some true) as Hgate.
  { apply run_gate; [apply load_NoDup|].
    split; [by intros ?%load_not_attached|done]. }
  pose proof (NoDup_after N overflow es) as Hnd.
  assert (∀ key, key ≠ "Escape" →
            step (after N overflow es) (Keydown key)
            = match last_report slider_entries es with
              | Some true => exec (handleKey key) (after N overflow es)
              | _ => after N overflow es
              end) as Hkey.
  { intros key Hk. unfold step at 1, exec at 1; cbn [handler]. simpl.
    unfold dispatch_keydown.
    destruct (last_report slider_entries es) as [[]|].
    - apply dispatch_attached; [done..|by apply Hgate].
    - apply dispatch_detached; [done|]. rewrite Hgate. done.
    - apply dispatch_detached; [done|]. rewrite Hgate. done. }
  split; rewrite Hkey by done; destruct (last_report slider_entries es) as [[]|];
    try done; by rewrite handleKey_exec.
Qed.

Lemma call_listener_navSticky (l : Listener) (key : string) (p : Page) :
  navSticky (exec (call_listener l key) p) = navSticky p.
Proof.
  destruct l; simpl.
  - pose proof (handleKey_outside key p) as H. by simplify_eq.
  - unfold exec at 1. rewrite escapeHandler_spec; simpl.
    destruct (_ && _); [|done]. unfold exec. by rewrite closeModal_spec.
Qed.

Lemma step_navSticky (p : Page) (e : Event) :
  navSticky (step p e)
  = match e with
    | Intersection_header (entry :: _) => negb (isIntersecting entry)
    | _ => navSticky p
    end.
Proof.
  unfold step. destruct e as [| |target|key|entries|entries| | |]; cbn [handler].
  - pose proof (nextSlide_outside p) as H. by simplify_eq.
  - pose proof (previousSlide_outside p) as H. by simplify_eq.
  - pose proof (dotContainer_click_outside_carousel target p) as H. by simplify_eq.
  - unfold exec, modify, dispatch_keydown; cbn [snd].
    generalize (keydownListeners p). intros ls. revert p.
    induction ls as [|l ls IH]; intros p; [done|].
    cbn [foldl]. by rewrite IH, call_listener_navSticky.
  - destruct entries as [|entry more]; [done|].
    unfold exec. by rewrite sliderView_spec.
  - destruct entries as [|entry more]; [done|].
    unfold exec. by rewrite stickyNav_spec.
  - done.
  - unfold exec. by rewrite closeModal_spec.
  - unfold exec. by rewrite closeModal_spec.
Qed.

Lemma load_outside (N : nat) (overflow : string) :
  navSticky (load N overflow) = false
  ∧ modalHidden (load N overflow) = true
  ∧ overlayHidden (load N overflow) = true
  ∧ bodyOverflow (load N overflow) = overflow
  ∧ previousOverflow (load N overflow) = None.
Proof.
  unfold load, script, exec, mbind, M_bind, gets, slideMove, createDots, modify.
  match goal with
  | |- context [activateDot ?c ?q] =>
      destruct (activateDot_frame c q) as [dots Hdots];
      unfold exec in Hdots; destruct (activateDot c q) as [[[]|e] q'] eqn:E
  end; simpl in *; subst; simpl; auto.
Qed.

Lemma run_sticky (es : list Event) (p : Page) (acc : option bool) :
  navSticky p = from_option negb false acc →
  navSticky (run es p)
  = from_option negb false (foldl (report_step header_entries) acc es).
Proof.
  revert p acc. induction es as [|e es IH]; intros p acc Hacc; [done|].
  unfold run in *. cbn [foldl]. apply IH.
  rewrite step_navSticky. unfold report_step.
  by destruct e as [| |?|?|?|[|[[]] ?]| | |].
Qed.

(** X9.  Whether the navigation is sticky is decided by the last
    callback of the header observer that carried an entry: it is sticky
    exactly when that entry did not intersect, and not sticky before
    any such callback.  No other event touches the class. *)
Theorem sticky_follows_last_report (N : nat) (overflow : string) (es : list Event) :
  navSticky (after N overflow es)
  = match last_report header_entries es with
    | Some visible => negb visible
    | None => false
    end.
Proof.
  unfold after, last_report. rewrite (run_sticky es _ None).
  - by destruct (foldl _ _ _).
  - apply load_outside.
Qed.

(** * More about the modal *)

Lemma dispatch_Escape_page (ls : list Listener) (p : Page) :
  foldl (λ q l, exec (call_listener l "Escape") q) p ls
  = if modalHidden p then p
    else if bool_decide (EscapeHandler ∈ ls) then exec closeModal p else p.
Proof.
  revert p. induction ls as [|l ls IH]; intros p.
  - cbn [foldl]. rewrite bool_decide_eq_false_2 by apply not_elem_of_nil.
    by destruct (modalHidden p).
  - cbn [foldl]. rewrite IH. destruct l; cbn [call_listener].
    + rewrite handleKey_exec, !bool_decide_eq_false_2 by done.
      rewrite (bool_decide_ext (EscapeHandler ∈ HandleKey :: ls) (EscapeHandler ∈ ls));
        [done|].
      rewrite elem_of_cons. split; [by intros [?|?]|by right].
    + rewrite (bool_decide_eq_true_2 (EscapeHandler ∈ EscapeHandler :: ls)) by by left.
      unfold exec at 1 2 3. rewrite escapeHandler_spec. cbn [snd].
      destruct (modalHidden p) eqn:Hh; simpl; [by rewrite Hh|].
      unfold exec. by rewrite closeModal_spec.
Qed.

(** X10.  On any page on which the Escape listener is registered, the
    Escape key does nothing while the modal is hidden, and while it is
    shown leaves the very page a click on the close button leaves. *)
Theorem escape_closes_open_modal (p : Page) :
  EscapeHandler ∈ keydownListeners p →
  step p (Keydown "Escape")
  = if modalHidden p then p else step p Click_btnClose.
Proof.
  intros Hesc. unfold step at 1, exec at 1; cbn [handler]. simpl.
  unfold dispatch_keydown. rewrite dispatch_Escape_page.
  by rewrite bool_decide_eq_true_2.
Qed.

Lemma escape_closes_open_modal_witness :
  EscapeHandler ∈ keydownListeners (after 1 "" [Click_showModal])
  ∧ step (after 1 "" [Click_showModal]) (Keydown "Escape")
    = if modalHidden (after 1 "" [Click_showModal])
      then after 1 "" [Click_showModal]
      else step (after 1 "" [Click_showModal]) Click_btnClose.
Proof.
  assert (EscapeHandler ∈ keydownListeners (after 1 "" [Click_showModal])) as H1
    by (vm_compute; apply list_elem_of_here).
  split; [exact H1|].
  exact (escape_closes_open_modal (after 1 "" [Click_showModal]) H1).
Defined.

Lemma modal_inv_outside (overflow : string) (p q : Page) :
  outside_carousel q = outside_carousel p → modal_inv overflow p → modal_inv overflow q.
Proof. unfold modal_inv. intros [= _ _ -> -> -> ->]. done. Qed.

Lemma modal_inv_closeModal (overflow : string) (p : Page) :
  modal_inv overflow p → modal_inv overflow (exec closeModal p).
Proof.
  intros (Hov & Hopen & Hbo & Hprev). unfold exec. rewrite closeModal_spec.
  unfold modal_inv; simpl. split_and!; [done..| |done].
  destruct (previousOverflow p) as [v|]; simpl; [by apply Hprev|done].
Qed.

Lemma modal_inv_call_listener (overflow : string) (l : Listener) (key : string) (p : Page) :
  modal_inv overflow p → modal_inv overflow (exec (call_listener l key) p).
Proof.
  intros Hp. destruct l; cbn [call_listener].
  - eapply modal_inv_outside; [apply handleKey_outside|done].
  - unfold exec at 1. rewrite escapeHandler_spec. cbn [snd].
    destruct (_ && _); [|done]. by apply modal_inv_closeModal.
Qed.

Lemma modal_inv_step (overflow : string) (p : Page) (e : Event) :
  modal_inv overflow p → modal_inv overflow (step p e).
Proof.
  intros Hp. unfold step.
  destruct e as [| |target|key|entries|entries| | |]; cbn [handler].
  - eapply modal_inv_outside; [apply nextSlide_outside|done].
  - eapply modal_inv_outside; [apply previousSlide_outside|done].
  - eapply modal_inv_outside; [apply dotContainer_click_outside_carousel|done].
  - unfold exec, modify, dispatch_keydown; cbn [snd].
    generalize (keydownListeners p). intros ls. revert p Hp.
    induction ls as [|l ls IH]; intros p Hp; [done|].
    cbn [foldl]. by apply IH, modal_inv_call_listener.
  - destruct entries as [|entry more]; [done|].
    unfold exec. by rewrite sliderView_spec.
  - destruct entries as [|entry more]; [done|].
    unfold exec. by rewrite stickyNav_spec.
  - destruct Hp as (Hov & Hopen & Hbo & Hprev). unfold modal_inv; simpl.
    split_and!; [done..|by right|]. by intros v [= <-].
  - by apply modal_inv_closeModal.
  - by apply modal_inv_closeModal.
Qed.

Lemma modal_inv_after (N : nat) (overflow : string) (es : list Event) :
  modal_inv overflow (after N overflow es).
Proof.
  unfold after.
  assert (modal_inv overflow (load N overflow)) as Hload.
  { unfold modal_inv.
    destruct (load_outside N overflow) as (_ & -> & -> & -> & ->).
    split_and!; [done|done|by left|done]. }
  revert Hload. generalize (load N overflow).
  induction es as [|e es IH]; intros p Hp; [done|].
  unfold run in *. cbn [foldl]. by apply IH, modal_inv_step.
Qed.

(** X11.  On every loaded page the overlay is hidden exactly when the
    modal is; while the modal is shown the overflow of the body is
    "hidden"; and the overflow of the body is never anything but the
    value the markup gave it or "hidden". *)
Theorem modal_keeps_page_consistent (N : nat) (overflow : string) (es : list Event) :
  (1 ≤ N)%nat →
  overlayHidden (after N overflow es) = modalHidden (after N overflow es)
  ∧ (modalHidden (after N overflow es) = false
     → bodyOverflow (after N overflow es) = "hidden")
  ∧ (bodyOverflow (after N overflow es) = overflow
     ∨ bodyOverflow (after N overflow es) = "hidden").
Proof.
  intros _. destruct (modal_inv_after N overflow es) as (H1 & H2 & H3 & _). done.
Qed.

Lemma modal_keeps_page_consistent_witness :
  (1 ≤ 2)%nat
  ∧ overlayHidden (after 2 "auto" [Click_showModal; Click_rightBtn])
    = modalHidden (after 2 "auto" [Click_showModal; Click_rightBtn])
  ∧ (modalHidden (after 2 "auto" [Click_showModal; Click_rightBtn]) = false
     → bodyOverflow (after 2 "auto" [Click_showModal; Click_rightBtn]) = "hidden")
  ∧ (bodyOverflow (after 2 "auto" [Click_showModal; Click_rightBtn]) = "auto"
     ∨ bodyOverflow (after 2 "auto" [Click_showModal; Click_rightBtn]) = "hidden").
Proof.
  split; [lia|].
  apply (modal_keeps_page_consistent 2 "auto" [Click_showModal; Click_rightBtn]). lia.
Defined.

(** X12.  [openModal] does not check whether the modal is already
    shown.  On a loaded page, two clicks on an open button in a row
    save "hidden" over the value saved first, and from then on no way of
    closing brings the overflow of the body back: after any events that
    do not open the modal once more the saved value is "hidden" and the
    overflow of the body is "hidden". *)
Theorem opened_twice_stays_locked
    (N : nat) (overflow : string) (es0 es : list Event) :
  (1 ≤ N)%nat →
  Click_showModal ∉ es →
  previousOverflow
    (run (Click_showModal :: Click_showModal :: es) (after N overflow es0))
  = Some "hidden"
  ∧ bodyOverflow
      (run (Click_showModal :: Click_showModal :: es) (after N overflow es0))
    = "hidden".
Proof.
  intros _ Hes. generalize (after N overflow es0). intros p.
  change (run (Click_showModal :: Click_showModal :: es) p)
    with (run es (step (step p Click_showModal) Click_showModal)).
  assert (saved "hidden" (step (step p Click_showModal) Click_showModal)) as Hs
    by (unfold saved; simpl; auto).
  destruct (run_saved _ es _ Hes Hs) as [Hprev [H|[H _]]]; done.
Qed.

Lemma opened_twice_stays_locked_witness :
  (1 ≤ 2)%nat
  ∧ (Click_showModal ∉ [Click_btnClose; Keydown "Escape"; Click_overlay])
  ∧ previousOverflow
      (run (Click_showModal :: Click_showModal
              :: [Click_btnClose; Keydown "Escape"; Click_overlay])
           (after 2 "scroll" [Click_rightBtn]))
    = Some "hidden"
  ∧ bodyOverflow
      (run (Click_showModal :: Click_showModal
              :: [Click_btnClose; Keydown "Escape"; Click_overlay])
           (after 2 "scroll" [Click_rightBtn]))
    = "hidden".
Proof.
  assert (1 ≤ 2)%nat as H0 by lia.
  assert (Click_showModal ∉ [Click_btnClose; Keydown "Escape"; Click_overlay]) as H1
    by (apply (bool_decide_unpack _); vm_compute; exact I).
  split; [exact H0|]. split; [exact H1|].
  exact (opened_twice_stays_locked 2 "scroll" [Click_rightBtn] _ H0 H1).
Defined.

(** * More about the tabs *)

Lemma closest_ext_in (c c' : string) (els els' : list Element) (path : list nat) :
  (∀ n, n ∈ path → has_class c els n = has_class c' els' n) →
  closest c els path = closest c' els' path.
Proof.
  unfold closest. induction path as [|n path IH]; intros H; [done|].
  cbn [list_find]. rewrite (H n) by by left.
  destruct (decide (has_class c' els' n = true)); [done|].
  cbn [fmap option_fmap option_map] in *.
  specialize (IH (λ m Hm, H m (list_elem_of_further _ _ _ Hm))).
  destruct (list_find _ path) as [[]|], (list_find _ path) as [[]|];
    simpl in *; congruence.
Qed.

Lemma querySelector_None (c : string) (els : list Element) :
  querySelector c els = None ↔ ∀ j, has_class c els j = false.
Proof.
  unfold querySelector, has_class.
  destruct (list_find _ els) as [[i el]|] eqn:E; simpl.
  - apply list_find_Some in E as (Hi & Hc & _). split; [done|].
    intros H. specialize (H i). rewrite Hi in H. simpl in H. congruence.
  - split; [|done]. intros _ j. apply list_find_None in E.
    destruct (els !! j) as [el|] eqn:Ej; [|done]. simpl.
    apply not_true_is_false. by eapply Forall_lookup_1 in E.
Qed.

Lemma activate_tab_eq (clicked : nat) (s : Tabs) :
  activate_tab clicked s
  = match querySelector
            ("operations__content--" +:+ dataset_tab (elements s) clicked)
            (foldl (λ els n, alter (classList_remove "operations__content--active") n els)
               (alter (classList_add "operations__tab--active") clicked
                  (foldl (λ els n, alter (classList_remove "operations__tab--active") n els)
                     (elements s) (operationsTabs s)))
               (operationsContents s))
    with
    | Some n =>
        (Normal tt,
         set_elements
           (alter (classList_add "operations__content--active") n
              (foldl (λ els n, alter (classList_remove "operations__content--active") n els)
                 (alter (classList_add "operations__tab--active") clicked
                    (foldl (λ els n, alter (classList_remove "operations__tab--active") n els)
                       (elements s) (operationsTabs s)))
                 (operationsContents s))) s)
    | None =>
        (Throw TypeError,
         set_elements
           (foldl (λ els n, alter (classList_remove "operations__content--active") n els)
              (alter (classList_add "operations__tab--active") clicked
                 (foldl (λ els n, alter (classList_remove "operations__tab--active") n els)
                    (elements s) (operationsTabs s)))
              (operationsContents s)) s)
    end.
Proof.
  unfold activate_tab, forEach_remove. unfold_M.
  cbn [elements operationsTabs operationsContents set_elements].
  rewrite dataset_tab_switched. by destruct (querySelector _ _).
Qed.

Lemma same_markup_load (els : list Element) : same_markup els (load_tabs els).
Proof. by split_and!. Qed.

Lemma same_markup_activate (els : list Element) (clicked : nat) (s : Tabs) :
  same_markup els s → same_markup els (exec (activate_tab clicked) s).
Proof.
  intros (Ht & Hc & Hlen & Hdata & Hcls).
  assert (∀ n, same_markup els
            (set_elements
               (foldl (λ els n, alter (classList_remove "operations__content--active") n els)
                  (alter (classList_add "operations__tab--active") clicked
                     (foldl (λ els n, alter (classList_remove "operations__tab--active") n els)
                        (elements s) (operationsTabs s)))
                  (operationsContents s)) s)
          ∧ same_markup els
              (set_elements
                 (alter (classList_add "operations__content--active") n
                    (foldl (λ els n, alter (classList_remove "operations__content--active") n els)
                       (alter (classList_add "operations__tab--active") clicked
                          (foldl
                             (λ els n, alter (classList_remove "operations__tab--active") n els)
                             (elements s) (operationsTabs s)))
                       (operationsContents s))) s)) as H.
  { intros n. split.
    - unfold same_markup. cbn [elements operationsTabs operationsContents set_elements].
      split_and!; [done..| | |].
      + by rewrite length_remove_each, length_alter, length_remove_each.
      + intros m.
        by rewrite data_tab_remove_each, data_tab_alter_add, data_tab_remove_each.
      + intros c m H1 H2.
        rewrite has_class_remove_each, has_class_add, has_class_remove_each.
        rewrite (bool_decide_eq_false_2 (c = "operations__tab--active")) by done.
        rewrite (bool_decide_eq_false_2 (c = "operations__content--active")) by done.
        simpl. rewrite !andb_true_r, orb_false_r. by apply Hcls.
    - unfold same_markup. cbn [elements operationsTabs operationsContents set_elements].
      split_and!; [done..| | |].
      + by rewrite length_alter, length_remove_each, length_alter, length_remove_each.
      + intros m. rewrite data_tab_alter_add.
        by rewrite data_tab_remove_each, data_tab_alter_add, data_tab_remove_each.
      + intros c m H1 H2.
        rewrite has_class_add, has_class_remove_each, has_class_add, has_class_remove_each.
        rewrite !(bool_decide_eq_false_2 (c = "operations__tab--active")) by done.
        rewrite !(bool_decide_eq_false_2 (c = "operations__content--active")) by done.
        simpl. rewrite !andb_true_r, !orb_false_r. by apply Hcls. }
  unfold exec. rewrite activate_tab_eq.
  destruct (querySelector _ _) as [n|]; cbn [snd]; apply (H 0%nat) || apply (H n).
Qed.

Lemma same_markup_switchTab (els : list Element) (path : list nat) (s : Tabs) :
  same_markup els s → same_markup els (exec (switchTab path) s).
Proof.
  intros Hs. unfold exec, switchTab, mbind, M_bind, gets.
  destruct (closest _ _ _) as [clicked|]; [|done].
  by apply same_markup_activate.
Qed.

Lemma same_markup_run_tabs (els : list Element) (clicks : list (list nat)) (s : Tabs) :
  same_markup els s → same_markup els (run_tabs clicks s).
Proof.
  revert s. induction clicks as [|path clicks IH]; intros s Hs; [done|].
  unfold run_tabs in *. cbn [foldl]. by apply IH, same_markup_switchTab.
Qed.

Lemma same_markup_closest (els : list Element) (s : Tabs) (path : list nat) :
  same_markup els s →
  closest "operations__tab" (elements s) path = closest "operations__tab" els path.
Proof.
  intros (_ & _ & _ & _ & Hcls). apply closest_ext_in. intros n _. by apply Hcls.
Qed.

Lemma same_markup_dataset_tab (els : list Element) (s : Tabs) (n : nat) :
  same_markup els s → dataset_tab (elements s) n = dataset_tab els n.
Proof. intros (_ & _ & _ & Hdata & _). unfold dataset_tab. by rewrite Hdata. Qed.

Lemma content_selector_ne (tab : string) :
  tab ≠ "active" →
  "operations__content--" +:+ tab ≠ "operations__tab--active"
  ∧ "operations__content--" +:+ tab ≠ "operations__content--active".
Proof.
  intros Htab. split; simpl; [discriminate|]. intros [= E]. done.
Qed.

(** X13.  In a document where the [data-tab] of the clicked tab is
    made of name characters, so that the string the listener builds is
    the selector of one class, and where that class names a panel:
    however many clicks [switchTab] has handled before, after the click
    the clicked tab is the only active tab and its panel the only
    active panel, and the listener returns. *)
Theorem tab_click_leaves_one_active
    (els : list Element) (clicks : list (list nat)) (path : list nat) (tab panel : nat) :
  closest "operations__tab" els path = Some tab →
  name_chars (dataset_tab els tab) = true →
  dataset_tab els tab ≠ "active" →
  querySelector ("operations__content--" +:+ dataset_tab els tab) els = Some panel →
  has_class "operations__content" els panel = true →
  returns (switchTab path) (run_tabs clicks (load_tabs els))
  ∧ active_tabs (run_tabs (clicks ++ [path]) (load_tabs els)) = [tab]
  ∧ active_contents (run_tabs (clicks ++ [path]) (load_tabs els)) = [panel].
Proof.
  intros Hclosest _ Htab Hpanel Hcontent.
  pose proof (same_markup_run_tabs els clicks _ (same_markup_load els)) as Hs.
  unfold run_tabs at 2 3. rewrite foldl_app. cbn [foldl].
  fold (run_tabs clicks (load_tabs els)).
  set (s := run_tabs clicks (load_tabs els)) in *.
  pose proof Hs as (Ht & Hc & Hlen & Hdata & Hcls).
  destruct (content_selector_ne _ Htab) as [Hne1 Hne2].
  pose proof (closest_has_class _ _ _ _ Hclosest) as Hclass.
  destruct (activate_tab_spec s tab panel) as (els' & Hrun & Htabs & Hcontents).
  { rewrite Hlen. by eapply has_class_lt. }
  { by rewrite (same_markup_dataset_tab els). }
  { rewrite (same_markup_dataset_tab els) by done.
    eapply querySelector_ext; [|exact Hpanel]. intros j. by apply Hcls. }
  unfold returns, exec, switchTab, mbind, M_bind, gets.
  rewrite (same_markup_closest els) by done. rewrite Hclosest, Hrun.
  split; [by eexists|]. unfold active_tabs, active_contents.
  cbn [snd elements operationsTabs operationsContents set_elements]. split.
  - rewrite Ht. rewrite (filter_only _ _ tab); [|apply NoDup_querySelectorAll|].
    + rewrite bool_decide_eq_true_2; [done|by apply elem_of_querySelectorAll].
    + intros n Hn. rewrite Htabs, Ht.
      rewrite (bool_decide_eq_true_2 (n ∈ _)) by done.
      rewrite andb_false_r. simpl. by rewrite bool_decide_eq_true.
  - rewrite Hc. rewrite (filter_only _ _ panel); [|apply NoDup_querySelectorAll|].
    + rewrite bool_decide_eq_true_2; [done|by apply elem_of_querySelectorAll].
    + intros n Hn. rewrite Hcontents, Hc.
      rewrite (bool_decide_eq_true_2 (n ∈ _)) by done.
      rewrite andb_false_r. simpl. by rewrite bool_decide_eq_true.
Qed.

Lemma tab_click_leaves_one_active_witness :
  closest "operations__tab" sample_tabs [2%nat; 0%nat] = Some 2%nat
  ∧ name_chars (dataset_tab sample_tabs 2) = true
  ∧ dataset_tab sample_tabs 2 ≠ "active"
  ∧ querySelector ("operations__content--" +:+ dataset_tab sample_tabs 2) sample_tabs
    = Some 5%nat
  ∧ has_class "operations__content" sample_tabs 5 = true
  ∧ returns (switchTab [2%nat; 0%nat])
      (run_tabs [[1%nat; 0%nat]; [0%nat]] (load_tabs sample_tabs))
  ∧ active_tabs (run_tabs ([[1%nat; 0%nat]; [0%nat]] ++ [[2%nat; 0%nat]])
                          (load_tabs sample_tabs)) = [2%nat]
  ∧ active_contents (run_tabs ([[1%nat; 0%nat]; [0%nat]] ++ [[2%nat; 0%nat]])
                              (load_tabs sample_tabs)) = [5%nat].
Proof.
  assert (closest "operations__tab" sample_tabs [2%nat; 0%nat] = Some 2%nat) as H1
    by (vm_compute; reflexivity).
  assert (name_chars (dataset_tab sample_tabs 2) = true) as Hn
    by (vm_compute; reflexivity).
  assert (dataset_tab sample_tabs 2 ≠ "active") as H2 by (vm_compute; discriminate).
  assert (querySelector ("operations__content--" +:+ dataset_tab sample_tabs 2) sample_tabs
          = Some 5%nat) as H3 by (vm_compute; reflexivity).
  assert (has_class "operations__content" sample_tabs 5 = true) as H4
    by (vm_compute; reflexivity).
  split; [exact H1|]. split; [exact Hn|]. split; [exact H2|]. split; [exact H3|].
  split; [exact H4|].
  exact (tab_click_leaves_one_active sample_tabs [[1%nat; 0%nat]; [0%nat]]
           [2%nat; 0%nat] 2 5 H1 Hn H2 H3 H4).
Defined.

(** X14.  A click inside a tab whose [data-tab] is made of name
    characters (or is missing, and read as "undefined") and names no
    element: [switchTab] raises on the panel lookup, after it has made
    the clicked tab the only active tab and taken the active class off
    every panel, so that no panel is left showing. *)
Theorem tab_without_panel (els : list Element) (path : list nat) (tab : nat) :
  closest "operations__tab" els path = Some tab →
  name_chars (dataset_tab els tab) = true →
  dataset_tab els tab ≠ "active" →
  querySelector ("operations__content--" +:+ dataset_tab els tab) els = None →
  fst (switchTab path (load_tabs els)) = Throw TypeError
  ∧ active_tabs (exec (switchTab path) (load_tabs els)) = [tab]
  ∧ active_contents (exec (switchTab path) (load_tabs els)) = [].
Proof.
  intros Hclosest _ Htab Hpanel.
  destruct (content_selector_ne _ Htab) as [Hne1 Hne2].
  pose proof (closest_has_class _ _ _ _ Hclosest) as Hclass.
  pose proof (has_class_lt _ _ _ Hclass) as Hlt.
  unfold exec, switchTab, mbind, M_bind, gets.
  change (elements (load_tabs els)) with els. rewrite Hclosest, activate_tab_eq.
  cbn [elements operationsTabs operationsContents load_tabs].
  set (els3 := foldl _ _ _).
  assert (querySelector ("operations__content--" +:+ dataset_tab els tab) els3 = None) as ->.
  { apply querySelector_None. intros j. unfold els3.
    rewrite has_class_remove_each, has_class_add, has_class_remove_each.
    rewrite !(bool_decide_eq_false_2 (_ +:+ _ = _)) by done. simpl.
    rewrite !andb_true_r, orb_false_r. revert j. by apply querySelector_None. }
  split; [done|]. unfold active_tabs, active_contents.
  cbn [snd elements operationsTabs operationsContents set_elements]. split.
  - rewrite (filter_only _ _ tab); [|apply NoDup_querySelectorAll|].
    + rewrite bool_decide_eq_true_2; [done|by apply elem_of_querySelectorAll].
    + intros n Hn. unfold els3.
      rewrite has_class_remove_each, has_class_add, has_class_remove_each.
      rewrite length_remove_each.
      rewrite (bool_decide_eq_false_2
                 ("operations__tab--active" = "operations__content--active")) by done.
      rewrite !(bool_decide_eq_true_2
                  ("operations__tab--active" = "operations__tab--active")) by done.
      rewrite (bool_decide_eq_true_2 (n ∈ _)) by done.
      cbn [andb negb orb]. rewrite andb_false_r, andb_true_r. cbn [orb].
      destruct (decide (n = tab)) as [->|Hn'].
      * rewrite !bool_decide_eq_true_2 by done. done.
      * rewrite (bool_decide_eq_false_2 (n = tab)) by done. done.
  - apply list_eq. intros i. rewrite lookup_nil.
    destruct (filter _ _ !! i) as [n|] eqn:E; [|done].
    apply list_elem_of_lookup_2, list_elem_of_filter in E as [E Hn].
    unfold els3 in E. rewrite has_class_remove_each in E.
    rewrite (bool_decide_eq_true_2 (_ = _)) in E by done.
    rewrite (bool_decide_eq_true_2 (n ∈ _)) in E by done.
    by rewrite andb_false_r in E.
Qed.

Lemma tab_without_panel_witness :
  closest "operations__tab"
    [mkElement ["operations__tab"] None; mkElement ["operations__content"] None]
    [0%nat] = Some 0%nat
  ∧ name_chars
      (dataset_tab
         [mkElement ["operations__tab"] None; mkElement ["operations__content"] None] 0)
    = true
  ∧ dataset_tab
      [mkElement ["operations__tab"] None; mkElement ["operations__content"] None] 0
    ≠ "active"
  ∧ querySelector
      ("operations__content--"
       +:+ dataset_tab
             [mkElement ["operations__tab"] None; mkElement ["operations__content"] None] 0)
      [mkElement ["operations__tab"] None; mkElement ["operations__content"] None]
    = None
  ∧ fst (switchTab [0%nat]
           (load_tabs
              [mkElement ["operations__tab"] None; mkElement ["operations__content"] None]))
    = Throw TypeError
  ∧ active_tabs
      (exec (switchTab [0%nat])
         (load_tabs
            [mkElement ["operations__tab"] None; mkElement ["operations__content"] None]))
    = [0%nat]
  ∧ active_contents
      (exec (switchTab [0%nat])
         (load_tabs
            [mkElement ["operations__tab"] None; mkElement ["operations__content"] None]))
    = [].
Proof.
  set (els := [mkElement ["operations__tab"] None; mkElement ["operations__content"] None]).
  assert (closest "operations__tab" els [0%nat] = Some 0%nat) as H1
    by (vm_compute; reflexivity).
  assert (name_chars (dataset_tab els 0) = true) as Hn by (vm_compute; reflexivity).
  assert (dataset_tab els 0 ≠ "active") as H2 by (vm_compute; discriminate).
  assert (querySelector ("operations__content--" +:+ dataset_tab els 0) els = None) as H3
    by (vm_compute; reflexivity).
  split; [exact H1|]. split; [exact Hn|]. split; [exact H2|]. split; [exact H3|].
  exact (tab_without_panel els [0%nat] 0 H1 Hn H2 H3).
Defined.

(** X15.  On every click whose path holds no element that is a [.btn]
    without being a tab, or a tab without being a [.btn], and whose
    container is no tab, the listener of [script.js] does exactly what
    [switchTab] does: same outcome, same store. *)
Theorem btn_listener_agrees_on_tab_markup
    (s : Tabs) (path : list nat) (currentTarget : nat) :
  (∀ n, n ∈ path →
        has_class "btn" (elements s) n = has_class "operations__tab" (elements s) n) →
  has_class "operations__tab" (elements s) currentTarget = false →
  operationsTabContainer_click path currentTarget s = switchTab path s.
Proof.
  intros Hpath Hcontainer.
  pose proof (closest_ext_in "btn" "operations__tab" _ _ path Hpath) as Heq.
  apply listeners_agree; [done|].
  rewrite Heq. intros H%closest_has_class. congruence.
Qed.

Lemma btn_listener_agrees_on_tab_markup_witness :
  (∀ n, n ∈ [2%nat; 0%nat] →
        has_class "btn" (elements (load_tabs sample_tabs)) n
        = has_class "operations__tab" (elements (load_tabs sample_tabs)) n)
  ∧ has_class "operations__tab" (elements (load_tabs sample_tabs)) 0 = false
  ∧ operationsTabContainer_click [2%nat; 0%nat] 0 (load_tabs sample_tabs)
    = switchTab [2%nat; 0%nat] (load_tabs sample_tabs).
Proof.
  assert (∀ n, n ∈ [2%nat; 0%nat] →
            has_class "btn" (elements (load_tabs sample_tabs)) n
            = has_class "operations__tab" (elements (load_tabs sample_tabs)) n) as H1.
  { intros n Hn. rewrite !elem_of_cons in Hn.
    destruct Hn as [->|[->|Hn]]; [vm_compute; reflexivity..|by apply elem_of_nil in Hn]. }
  assert (has_class "operations__tab" (elements (load_tabs sample_tabs)) 0 = false) as H2
    by (vm_compute; reflexivity).
  split; [exact H1|]. split; [exact H2|].
  exact (btn_listener_agrees_on_tab_markup (load_tabs sample_tabs) [2%nat; 0%nat] 0 H1 H2).
Defined.

(** * The navigation hover effect *)

Lemma fadeHandler_spec (this x : string) (link : nat) (nav : Nav) :
  nav_links nav !! link = Some x →
  fadeHandler this (OnLink link) nav
  = (match nav_logo nav with Some _ => Normal tt | None => Throw TypeError end,
     mkNav (<[link:=x]> (replicate (length (nav_links nav)) this))
           (match nav_logo nav with Some _ => Some this | None => None end)).
Proof.
  intros Hx. unfold fadeHandler. unfold_M. rewrite Hx. simpl.
  assert (imap (λ el opacity, if bool_decide (el ≠ link) then this else opacity)
               (nav_links nav)
          = <[link:=x]> (replicate (length (nav_links nav)) this)) as ->.
  { apply list_eq. intros j. rewrite list_lookup_imap.
    destruct (decide (link = j)) as [->|Hne].
    - rewrite list_lookup_insert_eq
        by (rewrite length_replicate; by eapply lookup_lt_Some).
      rewrite Hx. simpl. by rewrite bool_decide_eq_false_2 by (intros H; by apply H).
    - rewrite list_lookup_insert_ne by done.
      destruct (nav_links nav !! j) as [y|] eqn:E; simpl.
      + rewrite bool_decide_eq_true_2 by done.
        by rewrite lookup_replicate_2 by by eapply lookup_lt_Some.
      + symmetry. apply lookup_ge_None. rewrite length_replicate.
        by apply lookup_ge_None. }
  by destruct (nav_logo nav).
Qed.

(** X16.  In a bar with a logo, moving the pointer onto a link sets
    the opacity of every other link and of the logo to 0.5 and leaves
    the link itself as it was; moving it off the link again sets the
    others and the logo to 1.  The others end at 1, not at what they
    had before. *)
Theorem hover_dims_the_others (nav : Nav) (link : nat) (x logo : string) :
  nav_links nav !! link = Some x →
  nav_logo nav = Some logo →
  hover_run [Mouseover (OnLink link)] nav
  = mkNav (<[link:=x]> (replicate (length (nav_links nav)) "0.5")) (Some "0.5")
  ∧ hover_run [Mouseover (OnLink link); Mouseout (OnLink link)] nav
    = mkNav (<[link:=x]> (replicate (length (nav_links nav)) "1")) (Some "1").
Proof.
  intros Hx Hlogo. unfold hover_run; cbn [foldl hover_step].
  unfold exec, nav_mouseover, nav_mouseout.
  rewrite (fadeHandler_spec "0.5" x) by done. rewrite Hlogo. cbn [snd].
  split; [done|].
  rewrite (fadeHandler_spec "1" x); cbn [nav_links nav_logo snd].
  - by rewrite length_insert, length_replicate.
  - apply list_lookup_insert_eq. rewrite length_replicate. by eapply lookup_lt_Some.
Qed.

Lemma hover_dims_the_others_witness :
  nav_links (mkNav [""; ""; "0.3"] (Some "")) !! 2%nat = Some "0.3"
  ∧ nav_logo (mkNav [""; ""; "0.3"] (Some "")) = Some ""
  ∧ hover_run [Mouseover (OnLink 2)] (mkNav [""; ""; "0.3"] (Some ""))
    = mkNav (<[2%nat:="0.3"]>
               (replicate (length (nav_links (mkNav [""; ""; "0.3"] (Some "")))) "0.5"))
            (Some "0.5")
  ∧ hover_run [Mouseover (OnLink 2); Mouseout (OnLink 2)] (mkNav [""; ""; "0.3"] (Some ""))
    = mkNav (<[2%nat:="0.3"]>
               (replicate (length (nav_links (mkNav [""; ""; "0.3"] (Some "")))) "1"))
            (Some "1").
Proof.
  assert (nav_links (mkNav [""; ""; "0.3"] (Some "")) !! 2%nat = Some "0.3") as H1
    by reflexivity.
  assert (nav_logo (mkNav [""; ""; "0.3"] (Some "")) = Some "") as H2 by reflexivity.
  split; [exact H1|]. split; [exact H2|].
  exact (hover_dims_the_others (mkNav [""; ""; "0.3"] (Some "")) 2 "0.3" "" H1 H2).
Defined.

Lemma hover_step_own_link (nav : Nav) (e : HoverEvent) (link : nat) :
  (∀ other, hover_target e = OnLink other → other = link) →
  nav_links (hover_step nav e) !! link = nav_links nav !! link.
Proof.
  intros Htarget.
  assert (∀ this, nav_links (exec (fadeHandler this (hover_target e)) nav) !! link
                  = nav_links nav !! link) as H.
  { intros this. destruct (hover_target e) as [other|] eqn:E; [|done].
    rewrite (Htarget other) by done.
    destruct (nav_links nav !! link) as [x|] eqn:Hx.
    - unfold exec. rewrite (fadeHandler_spec this x) by done. cbn [snd nav_links].
      apply list_lookup_insert_eq. rewrite length_replicate. by eapply lookup_lt_Some.
    - unfold exec, fadeHandler, mbind, M_bind, gets. by rewrite Hx. }
  destruct e; apply H.
Qed.

(** X17.  The handler never writes the opacity of the link the event
    is on: after any sequence of hover events none of which is on
    another link, a link has the opacity it had before, with or without
    a logo in the bar. *)
Theorem hover_spares_its_target (nav : Nav) (es : list HoverEvent) (link : nat) :
  (∀ e other, e ∈ es → hover_target e = OnLink other → other = link) →
  nav_links (hover_run es nav) !! link = nav_links nav !! link.
Proof.
  revert nav. induction es as [|e es IH]; intros nav Hes; [done|].
  unfold hover_run in *. cbn [foldl]. rewrite IH.
  - apply hover_step_own_link. intros other. apply Hes. by left.
  - intros e' other He'. apply Hes. by right.
Qed.

Lemma hover_spares_its_target_witness :
  (∀ e other, e ∈ [Mouseover (OnLink 1); Mouseout OffLink; Mouseout (OnLink 1)] →
              hover_target e = OnLink other → other = 1%nat)
  ∧ nav_links (hover_run [Mouseover (OnLink 1); Mouseout OffLink; Mouseout (OnLink 1)]
                         (mkNav ["0.5"; "0.7"] None)) !! 1%nat
    = nav_links (mkNav ["0.5"; "0.7"] None) !! 1%nat.
Proof.
  assert (∀ e other, e ∈ [Mouseover (OnLink 1); Mouseout OffLink; Mouseout (OnLink 1)] →
                     hover_target e = OnLink other → other = 1%nat) as H1.
  { intros e other He. rewrite !elem_of_cons in He.
    destruct He as [->|[->|[->|He]]]; simpl; [congruence..|by apply elem_of_nil in He]. }
  split; [exact H1|].
  exact (hover_spares_its_target (mkNav ["0.5"; "0.7"] None) _ 1 H1).
Defined.

(** X18.  In a bar without logo the handler raises on the logo, but
    only after it has written the links: the other links are dimmed all
    the same. *)
Theorem hover_without_logo (nav : Nav) (link : nat) (x : string) :
  nav_links nav !! link = Some x →
  nav_logo nav = None →
  nav_mouseover (OnLink link) nav
  = (Throw TypeError,
     mkNav (<[link:=x]> (replicate (length (nav_links nav)) "0.5")) None).
Proof.
  intros Hx Hlogo. unfold nav_mouseover.
  rewrite (fadeHandler_spec "0.5" x) by done. by rewrite Hlogo.
Qed.

Lemma hover_without_logo_witness :
  nav_links (mkNav ["1"; "1"] None) !! 0%nat = Some "1"
  ∧ nav_logo (mkNav ["1"; "1"] None) = None
  ∧ nav_mouseover (OnLink 0) (mkNav ["1"; "1"] None)
    = (Throw TypeError,
       mkNav (<[0%nat:="1"]> (replicate (length (nav_links (mkNav ["1"; "1"] None))) "0.5"))
             None).
Proof.
  assert (nav_links (mkNav ["1"; "1"] None) !! 0%nat = Some "1") as H1 by reflexivity.
  assert (nav_logo (mkNav ["1"; "1"] None) = None) as H2 by reflexivity.
  split; [exact H1|]. split; [exact H2|].
  exact (hover_without_logo (mkNav ["1"; "1"] None) 0 "1" H1 H2).
Defined.

(** * Section reveal *)

Lemma reveal_run_concat (callbacks : list (list TargetEntry)) (sections : list SectionEl) :
  reveal_run callbacks sections
  = exec (revealSection (concat callbacks)) sections.
Proof.
  revert sections. induction callbacks as [|entries callbacks IH]; intros sections; [done|].
  unfold reveal_run in *. cbn [foldl concat]. rewrite IH.
  unfold exec, revealSection, modify; cbn [snd]. by rewrite foldl_app.
Qed.

Lemma revealSection_lookup (entries : list TargetEntry) (sections : list SectionEl) (i : nat) :
  exec (revealSection entries) sections !! i
  = if bool_decide (Exists (intersects i) entries)
    then (λ _, mkSectionEl false false) <$> sections !! i
    else sections !! i.
Proof.
  unfold exec, revealSection, modify; cbn [snd].
  revert sections. induction entries as [|entry entries IH]; intros sections.
  - cbn [foldl]. rewrite bool_decide_eq_false_2; [done|]. by intros ?%Exists_nil.
  - cbn [foldl]. rewrite IH. clear IH.
    destruct (decide (intersects i entry)) as [[Hint <-]|Hno].
    + rewrite Hint, list_lookup_alter_eq.
      rewrite (bool_decide_eq_true_2 (Exists _ (entry :: entries)))
        by (by apply Exists_cons_hd).
      case_bool_decide; by destruct (sections !! _).
    + rewrite (bool_decide_ext (Exists (intersects i) (entry :: entries))
                               (Exists (intersects i) entries))
        by (rewrite Exists_cons; tauto).
      assert ((if entry_isIntersecting entry
               then alter (λ _, mkSectionEl false false) (entry_target entry) sections
               else sections) !! i = sections !! i) as ->; [|done].
      destruct (entry_isIntersecting entry) eqn:Hint; [|done].
      apply list_lookup_alter_ne. intros E. by apply Hno.
Qed.

(** X19.  A section is revealed once and for good.  After the script
    has hidden and observed the [n] sections and the observer has
    called back any number of times, section [i] is revealed and
    unobserved if some callback carried an intersecting entry for it,
    and hidden and observed otherwise; entries that do not intersect
    and callbacks without entries change nothing.  And the callback
    never raises: on the page so reached, [revealSection] returns on
    any entries, the empty list and entries that do not intersect
    among them. *)
Theorem sections_reveal_once
    (n : nat) (callbacks : list (list TargetEntry)) (i : nat)
    (entries : list TargetEntry) :
  (i < n)%nat →
  returns (revealSection entries) (reveal_run callbacks (hide_sections n))
  ∧ reveal_run callbacks (hide_sections n) !! i
    = Some (if bool_decide (Exists (intersects i) (concat callbacks))
            then mkSectionEl false false
            else mkSectionEl true true).
Proof.
  intros Hi. split.
  - unfold returns, revealSection, modify. eexists. reflexivity.
  - rewrite reveal_run_concat, revealSection_lookup.
    unfold hide_sections. rewrite lookup_replicate_2 by done.
    by case_bool_decide.
Qed.

Lemma sections_reveal_once_witness :
  (1 < 3)%nat
  ∧ returns (revealSection [mkTargetEntry false 2; mkTargetEntry true 1])
      (reveal_run [[mkTargetEntry false 1]; [];
                   [mkTargetEntry true 1; mkTargetEntry true 0];
                   [mkTargetEntry false 1]]
                  (hide_sections 3))
  ∧ reveal_run [[mkTargetEntry false 1]; []; [mkTargetEntry true 1; mkTargetEntry true 0];
                [mkTargetEntry false 1]]
               (hide_sections 3) !! 1%nat
    = Some (if bool_decide
                 (Exists (intersects 1)
                    (concat [[mkTargetEntry false 1]; [];
                             [mkTargetEntry true 1; mkTargetEntry true 0];
                             [mkTargetEntry false 1]]))
            then mkSectionEl false false
            else mkSectionEl true true).
Proof.
  split; [lia|].
  apply (sections_reveal_once 3
           [[mkTargetEntry false 1]; []; [mkTargetEntry true 1; mkTargetEntry true 0];
            [mkTargetEntry false 1]] 1
           [mkTargetEntry false 2; mkTargetEntry true 1]).
  lia.
Defined.

(** * Lazy images *)

Lemma imageObserver_lookup (entries : list TargetEntry) (images : list Img) (i : nat) :
  exec (imageObserver entries) images !! i
  = Nat.iter (length (filter (intersects i) entries)) start_loading <$> images !! i.
Proof.
  unfold exec, imageObserver, modify; cbn [snd].
  revert images. induction entries as [|entry entries IH]; intros images.
  - cbn [foldl]. simpl. by destruct (images !! i).
  - cbn [foldl]. rewrite IH. clear IH. rewrite filter_cons.
    destruct (decide (intersects i entry)) as [[Hint <-]|Hno].
    + rewrite Hint, list_lookup_alter_eq. cbn [length].
      destruct (images !! _) as [img|]; [|done]. simpl.
      by rewrite <- Nat.iter_succ_r.
    + assert ((if entry_isIntersecting entry
               then alter start_loading (entry_target entry) images
               else images) !! i = images !! i) as ->; [|done].
      destruct (entry_isIntersecting entry) eqn:Hint; [|done].
      apply list_lookup_alter_ne. intros E. by apply Hno.
Qed.

Lemma iter_start_loading (c : nat) (img : Img) :
  Nat.iter (S c) start_loading img
  = mkImg (default "undefined" (img_data_src img)) (img_data_src img)
          (img_lazy img) false (S c + img_load_once img).
Proof.
  induction c as [|c IH]; [done|].
  change (Nat.iter (S (S c)) start_loading img)
    with (start_loading (Nat.iter (S c) start_loading img)).
  by rewrite IH.
Qed.

(** X20.  An image becomes sharp on its [load] event, not when it
    scrolls into view.  After a callback of the image observer with an
    intersecting entry for image [i], the image has its [data-src] as
    source and is unobserved, but carries the class [lazy-img] exactly
    as before; the [load] event that follows takes the class off and
    uses up every waiting listener. *)
Theorem image_sharp_after_load
    (images : list Img) (entries : list TargetEntry) (i : nat) (img : Img) :
  images !! i = Some img →
  Exists (intersects i) entries →
  (∃ waiting,
     img_run [Intersection_images entries] images !! i
     = Some (mkImg (default "undefined" (img_data_src img)) (img_data_src img)
                   (img_lazy img) false (S waiting)))
  ∧ img_run [Intersection_images entries; Load_image i] images !! i
    = Some (mkImg (default "undefined" (img_data_src img)) (img_data_src img)
                  false false 0).
Proof.
  intros Himg Hex. unfold img_run; cbn [foldl img_step].
  rewrite list_lookup_alter_eq, imageObserver_lookup, Himg.
  destruct (filter (intersects i) entries) as [|entry matching] eqn:E.
  { apply Exists_exists in Hex as (entry & Hin & Hint).
    assert (entry ∈ filter (intersects i) entries) as H
      by (by apply list_elem_of_filter).
    rewrite E in H. by apply elem_of_nil in H. }
  cbn [length fmap option_fmap option_map]. rewrite iter_start_loading.
  split; [by eexists|done].
Qed.

Lemma image_sharp_after_load_witness :
  [mkImg "low.jpg" (Some "high.jpg") true true 0] !! 0%nat
  = Some (mkImg "low.jpg" (Some "high.jpg") true true 0)
  ∧ Exists (intersects 0) [mkTargetEntry true 0]
  ∧ (∃ waiting,
       img_run [Intersection_images [mkTargetEntry true 0]]
               [mkImg "low.jpg" (Some "high.jpg") true true 0] !! 0%nat
       = Some (mkImg (default "undefined"
                        (img_data_src (mkImg "low.jpg" (Some "high.jpg") true true 0)))
                     (img_data_src (mkImg "low.jpg" (Some "high.jpg") true true 0))
                     (img_lazy (mkImg "low.jpg" (Some "high.jpg") true true 0))
                     false (S waiting)))
  ∧ img_run [Intersection_images [mkTargetEntry true 0]; Load_image 0]
            [mkImg "low.jpg" (Some "high.jpg") true true 0] !! 0%nat
    = Some (mkImg (default "undefined"
                     (img_data_src (mkImg "low.jpg" (Some "high.jpg") true true 0)))
                  (img_data_src (mkImg "low.jpg" (Some "high.jpg") true true 0))
                  false false 0).
Proof.
  assert ([mkImg "low.jpg" (Some "high.jpg") true true 0] !! 0%nat
          = Some (mkImg "low.jpg" (Some "high.jpg") true true 0)) as H1 by reflexivity.
  assert (Exists (intersects 0) [mkTargetEntry true 0]) as H2
    by (apply Exists_cons_hd; split; reflexivity).
  split; [exact H1|]. split; [exact H2|].
  exact (image_sharp_after_load _ _ 0 _ H1 H2).
Defined.

Lemma img_step_untargeted (images : list Img) (e : ImgEvent) (i : nat) (img : Img) :
  images !! i = Some img → img_load_once img = 0%nat →
  ¬ Exists (intersects i) (img_entries e) →
  img_step images e !! i = Some img.
Proof.
  intros Himg Honce Hno. destruct e as [entries|target]; cbn [img_step img_entries] in *.
  - rewrite imageObserver_lookup, Himg.
    destruct (filter (intersects i) entries) as [|entry matching] eqn:E; [done|].
    destruct Hno. apply Exists_exists. exists entry.
    assert (entry ∈ filter (intersects i) entries) as H by (rewrite E; by left).
    by apply list_elem_of_filter in H as [? ?].
  - rewrite list_lookup_alter. destruct (decide (target = i)) as [->|]; [|done].
    rewrite Himg. simpl. unfold image_loaded. rewrite Honce.
    destruct img; simpl in *; by subst.
Qed.

(** X21.  An image no intersecting entry was ever reported for is
    untouched, whatever else happens: it keeps the source and the class
    the markup gave it and stays observed.  In particular a [load]
    event of the low-resolution picture does not take the blur off. *)
Theorem untargeted_image_untouched
    (markup : list (string * option string * bool)) (es : list ImgEvent) (i : nat) :
  (∀ e, e ∈ es → ¬ Exists (intersects i) (img_entries e)) →
  img_run es (observe_images markup) !! i = observe_images markup !! i.
Proof.
  intros Hes. destruct (observe_images markup !! i) as [img|] eqn:Himg.
  - assert (img_load_once img = 0%nat) as Honce.
    { unfold observe_images in Himg. rewrite list_lookup_fmap in Himg.
      destruct (markup !! i) as [[[src data] lazy]|]; by simplify_eq/=. }
    revert Himg Hes. generalize (observe_images markup).
    induction es as [|e es IH]; intros images Himg Hes; [done|].
    unfold img_run in *. cbn [foldl]. apply IH.
    + apply img_step_untargeted; [done..|]. apply Hes. by left.
    + intros e' He'. apply Hes. by right.
  - apply lookup_ge_None. apply lookup_ge_None in Himg.
    assert (∀ images e, length (img_step images e) = length images) as Hlen.
    { intros images [entries|target]; cbn [img_step]; [|by rewrite length_alter].
      unfold exec, imageObserver, modify; cbn [snd].
      revert images. induction entries as [|entry entries IH]; intros images; [done|].
      cbn [foldl]. rewrite IH. destruct (entry_isIntersecting entry); [|done].
      by rewrite length_alter. }
    revert Himg. generalize (observe_images markup). clear Hes.
    induction es as [|e es IH]; intros images Himg; [done|].
    unfold img_run in *. cbn [foldl]. apply IH. by rewrite Hlen.
Qed.

Lemma untargeted_image_untouched_witness :
  (∀ e, e ∈ [Load_image 0; Intersection_images [mkTargetEntry false 0; mkTargetEntry true 1]] →
        ¬ Exists (intersects 0) (img_entries e))
  ∧ img_run [Load_image 0; Intersection_images [mkTargetEntry false 0; mkTargetEntry true 1]]
            (observe_images [("a.jpg", Some "A.jpg", true); ("b.jpg", Some "B.jpg", true)])
      !! 0%nat
    = observe_images [("a.jpg", Some "A.jpg", true); ("b.jpg", Some "B.jpg", true)] !! 0%nat.
Proof.
  assert (∀ e, e ∈ [Load_image 0;
                    Intersection_images [mkTargetEntry false 0; mkTargetEntry true 1]] →
               ¬ Exists (intersects 0) (img_entries e)) as H1.
  { intros e He. rewrite !elem_of_cons in He.
    destruct He as [->|[->|He]]; [| |by apply elem_of_nil in He]; simpl.
    - by intros ?%Exists_nil.
    - rewrite !Exists_cons, Exists_nil. unfold intersects; simpl.
      intros [[? _]|[[_ ?]|[]]]; discriminate. }
  split; [exact H1|].
  exact (untargeted_image_untouched
           [("a.jpg", Some "A.jpg", true); ("b.jpg", Some "B.jpg", true)] _ 0 H1).
Defined.

Lemma img_inv_start_loading (m : string * option string * bool) (img : Img) :
  img_inv m img → img_inv m (start_loading img).
Proof.
  destruct m as [[src data] lazy], img as [s d l o n]. simpl.
  intros [-> H]. split; [done|]. right. split; [done|]. split; [done|].
  destruct H as [H|(_ & _ & H)]; [|done]. left. congruence.
Qed.

Lemma img_inv_image_loaded (m : string * option string * bool) (img : Img) :
  img_inv m img → img_inv m (image_loaded img).
Proof.
  destruct m as [[src data] lazy], img as [s d l o n]. simpl.
  intros [-> H]. split; [done|].
  destruct H as [H|(Hsrc & Hobs & H)]; [left|right].
  - injection H as -> -> -> ->. done.
  - split; [done|]. split; [done|]. destruct n; auto.
Qed.

Lemma img_inv_step (markup : list (string * option string * bool))
    (images : list Img) (e : ImgEvent) :
  Forall2 img_inv markup images → Forall2 img_inv markup (img_step images e).
Proof.
  intros H. destruct e as [entries|target]; cbn [img_step].
  - unfold exec, imageObserver, modify; cbn [snd].
    revert images H. induction entries as [|entry entries IH]; intros images H; [done|].
    cbn [foldl]. apply IH. destruct (entry_isIntersecting entry); [|done].
    apply Forall2_alter_r; [done|]. intros. by apply img_inv_start_loading.
  - apply Forall2_alter_r; [done|]. intros. by apply img_inv_image_loaded.
Qed.

Lemma img_inv_observe (markup : list (string * option string * bool)) :
  Forall2 img_inv markup (observe_images markup).
Proof.
  unfold observe_images. apply Forall2_fmap_r, Forall_Forall2_diag, Forall_forall.
  intros [[src data] lazy] _. split; [done|by left].
Qed.

Lemma img_inv_run (markup : list (string * option string * bool)) (es : list ImgEvent) :
  Forall2 img_inv markup (img_run es (observe_images markup)).
Proof.
  pose proof (img_inv_observe markup) as H. revert H.
  generalize (observe_images markup).
  induction es as [|e es IH]; intros images H; [done|].
  unfold img_run in *. cbn [foldl]. by apply IH, img_inv_step.
Qed.

(** X22.  A sharp picture is the full picture.  Whatever callbacks and
    [load] events have come, an image never changes its [data-src]; one
    that is still observed is exactly as the script left it at load;
    one that lost a class [lazy-img] the markup gave it has its
    [data-src] as source; and the source is never anything but the one
    from the markup or the [data-src]. *)
Theorem sharp_image_has_source
    (markup : list (string * option string * bool)) (es : list ImgEvent)
    (i : nat) (src : string) (data : option string) (lazy : bool) (img : Img) :
  markup !! i = Some (src, data, lazy) →
  img_run es (observe_images markup) !! i = Some img →
  img_data_src img = data
  ∧ (img_observed img = true → img = mkImg src data lazy true 0)
  ∧ (img_lazy img ≠ lazy → img_lazy img = false ∧ img_src img = default "undefined" data)
  ∧ (img_src img = src ∨ img_src img = default "undefined" data).
Proof.
  intros Hm Himg.
  pose proof (img_inv_run markup es) as H.
  eapply Forall2_lookup_lr in H; [|done..]. destruct H as [Hdata H].
  split; [done|]. destruct H as [->|(Hsrc & Hobs & Hlazy)]; simpl.
  - split_and!; [done|done|by left].
  - split_and!; [congruence| |by right].
    intros Hne. by destruct Hlazy.
Qed.

Lemma sharp_image_has_source_witness :
  [("a.jpg", Some "A.jpg", true)] !! 0%nat = Some ("a.jpg", Some "A.jpg", true)
  ∧ img_run [Intersection_images [mkTargetEntry true 0]; Load_image 0]
            (observe_images [("a.jpg", Some "A.jpg", true)]) !! 0%nat
    = Some (mkImg "A.jpg" (Some "A.jpg") false false 0)
  ∧ img_data_src (mkImg "A.jpg" (Some "A.jpg") false false 0) = Some "A.jpg"
  ∧ (img_observed (mkImg "A.jpg" (Some "A.jpg") false false 0) = true
     → mkImg "A.jpg" (Some "A.jpg") false false 0
       = mkImg "a.jpg" (Some "A.jpg") true true 0)
  ∧ (img_lazy (mkImg "A.jpg" (Some "A.jpg") false false 0) ≠ true
     → img_lazy (mkImg "A.jpg" (Some "A.jpg") false false 0) = false
       ∧ img_src (mkImg "A.jpg" (Some "A.jpg") false false 0)
         = default "undefined" (Some "A.jpg"))
  ∧ (img_src (mkImg "A.jpg" (Some "A.jpg") false false 0) = "a.jpg"
     ∨ img_src (mkImg "A.jpg" (Some "A.jpg") false false 0)
       = default "undefined" (Some "A.jpg")).
Proof.
  assert ([("a.jpg", Some "A.jpg", true)] !! 0%nat = Some ("a.jpg", Some "A.jpg", true))
    as H1 by reflexivity.
  assert (img_run [Intersection_images [mkTargetEntry true 0]; Load_image 0]
                  (observe_images [("a.jpg", Some "A.jpg", true)]) !! 0%nat
          = Some (mkImg "A.jpg" (Some "A.jpg") false false 0)) as H2
    by (vm_compute; reflexivity).
  split; [exact H1|]. split; [exact H2|].
  exact (sharp_image_has_source [("a.jpg", Some "A.jpg", true)] _ 0 _ _ _ _ H1 H2).
Defined.
